(** * Detective-Conan Graph RAG: the ingestion and retrieval core

    A shallow embedding of [graph_rag_vertex_neo4j.py]: the extractor
    ([extract_graph_schema]), the ingestion pipeline ([ingest_evidence]),
    the retrieval step ([investigate_case]), the prompt built by the
    synthesizer ([solve_crime]) and the session handling of the page
    ([main]).

    The program talks to outside services.  They appear here as
    follows.
    - The generation backend: for extraction its answer enters as the
      outcome of [json.loads(response.text)], a value of [loads_result];
      for the verdict it is the section variable [generate_content].
    - The property graph (Neo4j): a [Store] of Entity nodes, typed edges,
      EvidenceChunk nodes and MENTIONS links.  A [session.run] of the
      source is a store transformer that does what the Cypher text says,
      as long as the statement is the one the code means: parameters that
      are text, and a relationship type that is a Cypher name.  What the
      backend makes of any other statement is left to it: the fields of
      [Outside].
    - The regular-expression engine and the embedding similarity of the
      graph backend, and the iteration order of a Python [set]: section
      variables [regex_match], [score] and [set_order].
    - The file system, the embedding service and the vector store: each
      ingestion is given whether the file could be read and whether the
      chunk was accepted.  It is also given whether the generation
      backend answered the extraction request.
    Strings are byte strings.  The case mapping of the model is that of
    the ASCII letters; the upper case of a text with other characters is
    left to [Outside].  JSON numbers are integers. *)

From Stdlib Require Import String Ascii List ZArith Lia Bool Arith.
Import ListNotations.
Local Open Scope string_scope.
Local Open Scope list_scope.
Set Warnings "-register-all".

(** ** Python values produced by [json.loads] *)

Inductive json : Type :=
| JNull
| JBool (b : bool)
| JNum (n : Z)
| JStr (s : string)
| JArr (items : list json)
| JObj (fields : list (string * json)).

(** The exceptions the modelled code can raise.  [OSError] is the file
    that cannot be read, [ServiceError] a service failing: the embedding
    service, the vector store or the generation backend; [ClientError]
    is the graph backend refusing a statement. *)
Inductive exn : Type :=
| KeyError (key : string)
| TypeError
| AttributeError
| OSError
| ServiceError
| ClientError.

Definition result (A : Type) : Type := (exn + A)%type.

Fixpoint assoc (k : string) (fields : list (string * json)) : option json :=
  match fields with
  | [] => None
  | (k', v) :: rest => if String.eqb k' k then Some v else assoc k rest
  end.

(** [d.get(key, default)]: only a dict has the method. *)
Definition dict_get (d : json) (key : string) (default : json) : result json :=
  match d with
  | JObj fields =>
      match assoc key fields with
      | Some v => inr v
      | None => inr default
      end
  | _ => inl AttributeError
  end.

(** [o[key]] with a string key: a dict looks it up, every other value
    raises [TypeError]. *)
Definition subscript (o : json) (key : string) : result json :=
  match o with
  | JObj fields =>
      match assoc key fields with
      | Some v => inr v
      | None => inl (KeyError key)
      end
  | _ => inl TypeError
  end.

Fixpoint chars (s : string) : list json :=
  match s with
  | EmptyString => []
  | String c rest => JStr (String c EmptyString) :: chars rest
  end.

(** [for x in o]: a list yields its items, a string its characters, a
    dict its keys; the other values are not iterable. *)
Definition iterate (o : json) : result (list json) :=
  match o with
  | JArr items => inr items
  | JStr s => inr (chars s)
  | JObj fields => inr (map (fun kv => JStr (fst kv)) fields)
  | _ => inl TypeError
  end.

(** ** String methods *)

Definition is_lower (c : ascii) : bool :=
  let n := nat_of_ascii c in ((97 <=? n) && (n <=? 122))%nat.

Definition is_upper (c : ascii) : bool :=
  let n := nat_of_ascii c in ((65 <=? n) && (n <=? 90))%nat.

Definition is_digit (c : ascii) : bool :=
  let n := nat_of_ascii c in ((48 <=? n) && (n <=? 57))%nat.

Definition upper_char (c : ascii) : ascii :=
  if is_lower c then ascii_of_nat (nat_of_ascii c - 32)%nat else c.

Definition lower_char (c : ascii) : ascii :=
  if is_upper c then ascii_of_nat (nat_of_ascii c + 32)%nat else c.

Fixpoint map_string (f : ascii -> ascii) (s : string) : string :=
  match s with
  | EmptyString => EmptyString
  | String c rest => String (f c) (map_string f rest)
  end.

(** [s.upper()] of a text of ASCII characters. *)
Definition upper (s : string) : string := map_string upper_char s.

Definition lower (s : string) : string := map_string lower_char s.

(** [s.replace(old, new)] for one-character [old] and [new]. *)
Definition replace (old new : ascii) (s : string) : string :=
  map_string (fun c => if Ascii.eqb c old then new else c) s.

(** Line 123, [rel['type'].upper().replace(' ', '_').replace('-', '_')],
    of a type of ASCII characters. *)
Definition sanitize (s : string) : string :=
  replace "-"%char "_"%char (replace " "%char "_"%char (upper s)).

Fixpoint forall_chars (p : ascii -> bool) (s : string) : bool :=
  match s with
  | EmptyString => true
  | String c rest => p c && forall_chars p rest
  end.

Definition is_ascii (s : string) : bool :=
  forall_chars (fun c => (nat_of_ascii c <? 128)%nat) s.

(** A Cypher name, as a relationship type can be written without
    quoting it: a letter or an underscore, then letters, digits and
    underscores. *)
Definition name_start (c : ascii) : bool :=
  is_lower c || is_upper c || Ascii.eqb c "_"%char.

Definition name_char (c : ascii) : bool := name_start c || is_digit c.

Definition cypher_name (s : string) : bool :=
  match s with
  | EmptyString => false
  | String c rest => name_start c && forall_chars name_char rest
  end.

Fixpoint prefixb (p s : string) : bool :=
  match p, s with
  | EmptyString, _ => true
  | String a p', String b s' => Ascii.eqb a b && prefixb p' s'
  | String _ _, EmptyString => false
  end.

(** Cypher's [s CONTAINS p]. *)
Fixpoint contains (s p : string) : bool :=
  prefixb p s ||
  match s with
  | EmptyString => false
  | String _ rest => contains rest p
  end.

(** [s[:n]]. *)
Fixpoint take (n : nat) (s : string) : string :=
  match n, s with
  | O, _ => EmptyString
  | S _, EmptyString => EmptyString
  | S n', String c rest => String c (take n' rest)
  end.

Fixpoint join (sep : string) (l : list string) : string :=
  match l with
  | [] => EmptyString
  | [x] => x
  | x :: rest => (x ++ sep ++ join sep rest)%string
  end.

(** ** The graph store *)

Record Entity : Type := mkEntity { ent_id : string; ent_type : string }.

(** A relationship carries its Cypher type ([edge_label]) and its
    property map.  The type is not a property: [r.type] reads
    [edge_props]. *)
Record Edge : Type := mkEdge {
  edge_src : string;
  edge_label : string;
  edge_dst : string;
  edge_props : list (string * string)
}.

Record Chunk : Type := mkChunk { chunk_text : string; chunk_source : string }.

(** [mentions] links a chunk, by its position in [chunks], to an entity
    id. *)
Record Store : Type := mkStore {
  entities : list Entity;
  edges : list Edge;
  chunks : list Chunk;
  mentions : list (nat * string)
}.

Definition empty_store : Store := mkStore [] [] [] [].

Definition has_entity (id : string) (ents : list Entity) : bool :=
  existsb (fun e => String.eqb (ent_id e) id) ents.

Definition set_type (id ty : string) (e : Entity) : Entity :=
  if String.eqb (ent_id e) id then mkEntity (ent_id e) ty else e.

(** [MERGE (n:Entity {id: $id}) SET n.type = $type] on the entity
    nodes. *)
Definition merge_entity (id ty : string) (ents : list Entity) : list Entity :=
  if has_entity id ents
  then map (set_type id ty) ents
  else ents ++ [mkEntity id ty].

Definition same_edge (a l b : string) (e : Edge) : bool :=
  String.eqb (edge_src e) a && String.eqb (edge_label e) l
  && String.eqb (edge_dst e) b.

(** [MATCH (a:Entity {id: $source}), (b:Entity {id: $target})
     MERGE (a)-[r:LABEL]->(b)]: no row without both endpoints; with
    both, an edge of that type from a to b is found or created, with no
    property. *)
Definition merge_edge (ents : list Entity) (a l b : string)
  (es : list Edge) : list Edge :=
  if has_entity a ents && has_entity b ents
  then if existsb (same_edge a l b) es then es else es ++ [mkEdge a l b []]
  else es.

Definition same_mention (i : nat) (id : string) (m : nat * string) : bool :=
  Nat.eqb (fst m) i && String.eqb (snd m) id.

Definition merge_mention (i : nat) (id : string)
  (ms : list (nat * string)) : list (nat * string) :=
  if existsb (same_mention i id) ms then ms else ms ++ [(i, id)].

(** ** State and exceptions

    A statement of the program takes the store and gives the store it
    leaves behind, with either the exception it raised or its value.
    Each [session.run] commits on its own, so the store reached before an
    exception stays. *)

Definition M (A : Type) : Type := Store -> Store * result A.

Definition ret {A} (a : A) : M A := fun g => (g, inr a).

Definition raise {A} (e : exn) : M A := fun g => (g, inl e).

Definition bind {A B} (m : M A) (k : A -> M B) : M B :=
  fun g =>
    match m g with
    | (g', inr a) => k a g'
    | (g', inl e) => (g', inl e)
    end.

Definition lift {A} (r : result A) : M A := fun g => (g, r).

Definition modify (f : Store -> Store) : M unit := fun g => (f g, inr tt).

Notation "x <- m ;; k" := (bind m (fun x => k))
  (at level 61, m at next level, right associativity).
Notation "m ;;; k" := (bind m (fun _ => k))
  (at level 61, right associativity).

(** [for x in l: body(x)]. *)
Fixpoint for_each {A} (body : A -> M unit) (l : list A) : M unit :=
  match l with
  | [] => ret tt
  | x :: rest => body x ;;; for_each body rest
  end.

(** ** What the model leaves to the outside

    The upper case of a text that is not ASCII, and what the graph
    backend does with a statement that is not the one the code means: an
    edge statement whose text carries a type that is no Cypher name or
    whose parameters are not text, an entity statement and a MENTIONS
    statement with a parameter that is not text. *)
Record Outside : Type := mkOutside {
  unicode_upper : string -> string;
  run_edge_text : string -> json -> json -> M unit;
  run_entity_values : json -> json -> M unit;
  run_mentions_value : json -> string -> M unit
}.

(** ** The extractor *)

(** What [json.loads(response.text)] makes of the backend's answer: a
    value, or an exception. *)
Inductive loads_result : Type :=
| Loaded (v : json)
| JSONDecodeError.

Definition empty_result : json :=
  JObj [("nodes", JArr []); ("relationships", JArr [])].

(** Lines 80-84: the [try] around [json.loads], and the fallback of its
    [except]. *)
Definition extract_graph_schema (response : loads_result) : json :=
  match response with
  | Loaded v => v
  | JSONDecodeError => empty_result
  end.

(** ** Statements sent to the graph *)

(** The MENTIONS rows of a chunk and the two-hop rows of the traversal
    query. *)
Record Row : Type := mkRow {
  start_id : string;
  r1_type : option string;
  middle_id : string;
  r2_type : option string;
  end_id : string
}.

Definition indexed {A} (l : list A) : list (nat * A) :=
  combine (seq 0 (length l)) l.

Fixpoint prop_lookup (k : string) (props : list (string * string))
  : option string :=
  match props with
  | [] => None
  | (k', v) :: rest => if String.eqb k' k then Some v else prop_lookup k rest
  end.

(** The far end of [e] seen from [node], the pattern [(node)-[e]-(x)]
    matching the edge in either direction. *)
Definition other_end (node : string) (e : Edge) : option string :=
  if String.eqb (edge_src e) node then Some (edge_dst e)
  else if String.eqb (edge_dst e) node then Some (edge_src e)
  else None.

(** [(node)-[r:RELATED]-(x)]: the RELATED edges at [node], each with its
    position and the node reached. *)
Definition hops (node : string) (es : list Edge)
  : list (nat * Edge * string) :=
  flat_map (fun je : nat * Edge =>
              if String.eqb (edge_label (snd je)) "RELATED"
              then match other_end node (snd je) with
                   | Some x => [(fst je, snd je, x)]
                   | None => []
                   end
              else [])
           (indexed es).

(** The paths [(start)-[r1:RELATED]-(middle)-[r2:RELATED]-(end)]; one
    pattern never uses a relationship twice. *)
Definition paths_from (start : string) (es : list Edge) : list Row :=
  flat_map (fun h1 : nat * Edge * string =>
     let '(j, r1, mid) := h1 in
     flat_map (fun h2 : nat * Edge * string =>
        let '(k, r2, en) := h2 in
        if Nat.eqb j k then []
        else [mkRow start (prop_lookup "type" (edge_props r1)) mid
                    (prop_lookup "type" (edge_props r2)) en])
       (hops mid es))
    (hops start es).

Definition two_hop_rows (g : Store) (text : string) : list Row :=
  flat_map (fun ic : nat * Chunk =>
     if String.eqb (chunk_text (snd ic)) text
     then flat_map (fun m : nat * string =>
             if Nat.eqb (fst m) (fst ic)
             then paths_from (snd m) (edges g)
             else [])
            (mentions g)
     else [])
    (indexed (chunks g)).

(** [str(v)] of a value the driver returns: [None] for a null. *)
Definition py_str (v : option string) : string :=
  match v with
  | Some s => s
  | None => "None"
  end.

(** Line 181. *)
Definition fact_string (s r1 m r2 e : string) : string :=
  (s ++ " --[" ++ r1 ++ "]--> " ++ m ++ " --[" ++ r2 ++ "]--> " ++ e)%string.

Definition fact_of (r : Row) : string :=
  fact_string (start_id r) (py_str (r1_type r)) (middle_id r)
              (py_str (r2_type r)) (end_id r).

Definition nl : string := String (ascii_of_nat 10%nat) EmptyString.

Definition dq : string := String (ascii_of_nat 34%nat) EmptyString.

Definition index_name : string := "crime_evidence_index".

Section Program.

(** [regex_match p s]: whether [s =~ p] holds in the graph backend;
    [None] when it refuses [p]. *)
Variable regex_match : string -> string -> option bool.

Variable out : Outside.

(** [score q t]: how close the embedding of chunk text [t] is to that
    of query [q]; only the order of the scores matters. *)
Variable score : string -> string -> Z.

(** *** Ingestion *)

(** Lines 96-106: [Neo4jVector.from_documents] stores the document as
    one EvidenceChunk, a new node at each call, and hands back the
    index; when the embedding service or the vector store does not
    accept the chunk it raises and nothing is stored.  The embedding
    stays with the backend: see [score]. *)
Definition from_documents (accepted : bool) (text source : string)
  : M string :=
  if accepted
  then modify (fun g => mkStore (entities g) (edges g)
                                (chunks g ++ [mkChunk text source])
                                (mentions g)) ;;;
       ret index_name
  else raise ServiceError.

(** Lines 115-118, for an [$id] and a [$type] that are text; other
    values go to the backend as they are. *)
Definition run_merge_entity (id ty : json) : M unit :=
  match id, ty with
  | JStr i, JStr t =>
      modify (fun g => mkStore (merge_entity i t (entities g)) (edges g)
                               (chunks g) (mentions g))
  | _, _ => run_entity_values out id ty
  end.

(** The statement text of lines 126-129. *)
Definition edge_query (rel_type : string) : string :=
  (nl
   ++ "                MATCH (a:Entity {id: $source}), (b:Entity {id: $target})"
   ++ nl
   ++ "                MERGE (a)-[r:" ++ rel_type ++ "]->(b)" ++ nl
   ++ "            ")%string.

(** Line 130.  When the spliced type is a Cypher name and both
    parameters are text, the text is the statement the code means.  Any
    other text goes to the backend as it is. *)
Definition run_merge_edge (rel_type : string) (source target : json)
  : M unit :=
  match source, target with
  | JStr a, JStr b =>
      if cypher_name rel_type
      then modify (fun g =>
                     mkStore (entities g)
                             (merge_edge (entities g) a rel_type b (edges g))
                             (chunks g) (mentions g))
      else run_edge_text out (edge_query rel_type) source target
  | _, _ => run_edge_text out (edge_query rel_type) source target
  end.

(** The chunks selected by the [WHERE] of lines 136-138. *)
Fixpoint matching_chunks (pattern sample : string) (i : nat)
  (cs : list Chunk) : result (list nat) :=
  match cs with
  | [] => inr []
  | c :: rest =>
      match regex_match pattern (chunk_text c) with
      | None => inl ClientError
      | Some hit =>
          match matching_chunks pattern sample (S i) rest with
          | inl e => inl e
          | inr found =>
              inr (if hit && contains (chunk_text c) sample
                   then i :: found else found)
          end
      end
  end.

(** Lines 134-145, for an [$entity_id] that is text. *)
Definition run_link_mentions (entity_id : json) (text_sample : string)
  : M unit :=
  match entity_id with
  | JStr id =>
      fun g =>
        match matching_chunks ("(?i).*" ++ id ++ ".*")%string text_sample 0
                              (chunks g) with
        | inl e => (g, inl e)
        | inr found =>
            if has_entity id (entities g)
            then (mkStore (entities g) (edges g) (chunks g)
                          (fold_left (fun ms i => merge_mention i id ms)
                                     found (mentions g)),
                  inr tt)
            else (g, inr tt)
        end
  | _ => run_mentions_value out entity_id text_sample
  end.

(** [s.upper()]: the ASCII case map on a text of ASCII characters. *)
Definition py_upper (s : string) : string :=
  if is_ascii s then upper s else unicode_upper out s.

(** [v.upper()] as the code calls it on [rel['type']]: a method of [str]
    only. *)
Definition str_upper (v : json) : result string :=
  match v with
  | JStr s => inr (py_upper s)
  | _ => inl AttributeError
  end.

Definition node_step (node : json) : M unit :=
  id <- lift (subscript node "id") ;;
  ty <- lift (subscript node "type") ;;
  run_merge_entity id ty.

Definition rel_step (rel : json) : M unit :=
  ty <- lift (subscript rel "type") ;;
  up <- lift (str_upper ty) ;;
  let rel_type := replace "-"%char "_"%char (replace " "%char "_"%char up) in
  source <- lift (subscript rel "source") ;;
  target <- lift (subscript rel "target") ;;
  run_merge_edge rel_type source target.

Definition mention_step (text_data : string) (node : json) : M unit :=
  id <- lift (subscript node "id") ;;
  run_link_mentions id (take 100 text_data).

(** Lines 86-147.  [read] is what lines 89-90 give, the text of the file
    or the exception; [accepted] tells whether lines 96-106 go through;
    [answer] is what the call of line 109 meets: the exception of
    [generate_content] (lines 75-79, outside the [try]), or what
    [json.loads] makes of the answer. *)
Definition ingest_steps (file_path : string) (read : result string)
  (accepted : bool) (answer : result loads_result) : M string :=
  text_data <- lift read ;;
  vector_store <- from_documents accepted text_data file_path ;;
  response <- lift answer ;;
  let graph_data := extract_graph_schema response in
  nodes <- lift (dict_get graph_data "nodes" (JArr [])) ;;
  nodes <- lift (iterate nodes) ;;
  for_each node_step nodes ;;;
  rels <- lift (dict_get graph_data "relationships" (JArr [])) ;;
  rels <- lift (iterate rels) ;;
  for_each rel_step rels ;;;
  nodes' <- lift (dict_get graph_data "nodes" (JArr [])) ;;
  nodes' <- lift (iterate nodes') ;;
  for_each (mention_step text_data) nodes' ;;;
  ret vector_store.

(** The ingestion of a file that was read, whose chunk was accepted and
    for which the generation backend answered. *)
Definition ingest_evidence (file_path text_data : string)
  (response : loads_result) : M string :=
  ingest_steps file_path (inr text_data) true (inr response).

(** *** Retrieval *)

Fixpoint insert_by_score (query : string) (c : Chunk) (l : list Chunk)
  : list Chunk :=
  match l with
  | [] => [c]
  | d :: rest =>
      if (score query (chunk_text d) <? score query (chunk_text c))%Z
      then c :: d :: rest
      else d :: insert_by_score query c rest
  end.

Definition rank (query : string) (l : list Chunk) : list Chunk :=
  fold_right (insert_by_score query) [] l.

(** [vector_store.similarity_search(query, k)]: the [k] best chunks of
    the index. *)
Definition similarity_search (query : string) (k : nat) : M (list Chunk) :=
  fun g => (g, inr (firstn k (rank query (chunks g)))).

(** Lines 170-177: the traversal statement, [LIMIT 20]. *)
Definition run_two_hop (text : string) : M (list Row) :=
  fun g => (g, inr (firstn 20 (two_hop_rows g text))).

(** The body of the loop of lines 163-182, on the two accumulators. *)
Fixpoint investigate_loop (vector_results : list Chunk)
  (context_text : string) (graph_context : list string)
  : M (string * list string) :=
  match vector_results with
  | [] => ret (context_text, graph_context)
  | r :: rest =>
      let chunk_text := chunk_text r in
      let context_text :=
        (context_text ++ "EVIDENCE FILE (" ++ chunk_source r ++ "): "
                      ++ chunk_text ++ nl ++ nl)%string in
      graph_records <- run_two_hop chunk_text ;;
      investigate_loop rest context_text
                       (graph_context ++ map fact_of graph_records)
  end.

(** Lines 153-184. *)
Definition investigate_case (query : string) : M (string * list string) :=
  vector_results <- similarity_search query 5 ;;
  investigate_loop vector_results EmptyString [].

(** *** The synthesizer *)

(** [set_order l]: the order in which Python iterates over [set(l)]. *)
Variable set_order : list string -> list string.

(** The generation backend, from prompt to answer text. *)
Variable generate_content : string -> string.

(** Lines 195-208. *)
Definition prompt (graph_str context_text query : string) : string :=
  (nl
   ++ "    You are the genius high school detective Shinichi Kudo, currently in the body of a child named **Conan Edogawa**. " ++ nl
   ++ "    " ++ nl
   ++ "    Solve the mystery based strictly on the " ++ dq ++ "Evidence Board"
   ++ dq ++ " (Graph) and " ++ dq ++ "Case Files" ++ dq ++ " (Text)." ++ nl
   ++ "    " ++ nl
   ++ "    [The Evidence Board (Graph Connections)]" ++ nl
   ++ "    " ++ graph_str ++ nl
   ++ "    " ++ nl
   ++ "    [Case Files (Text Evidence)]" ++ nl
   ++ "    " ++ context_text ++ nl
   ++ "    " ++ nl
   ++ "    MYSTERY TO SOLVE: " ++ query ++ nl
   ++ nl
   ++ "    ")%string.

(** Lines 190-214. *)
Definition solve_crime (query context_text : string)
  (graph_context : list string) : string :=
  let graph_str := join nl (set_order graph_context) in
  generate_content (prompt graph_str context_text query).

End Program.

(** ** A matcher for literal ids

    [literal_match] decides [text =~ '(?i).*' + id + '.*'] when [id] is
    made of letters, digits and spaces: the whole text has to match, [.]
    stops at a line terminator, and case is ignored.  A pattern outside
    that fragment gets no answer. *)

Definition is_literal_char (c : ascii) : bool :=
  is_lower c || is_upper c || is_digit c || Ascii.eqb c " "%char.

Definition is_line_end (c : ascii) : bool :=
  Ascii.eqb c (ascii_of_nat 10%nat) || Ascii.eqb c (ascii_of_nat 13%nat).

Definition literal_match (pattern text : string) : option bool :=
  let id := substring 6 (String.length pattern - 8) pattern in
  if String.eqb pattern ("(?i).*" ++ id ++ ".*")%string
     && forall_chars is_literal_char id
  then Some (forall_chars (fun c => negb (is_line_end c)) text
             && contains (lower text) (lower id))
  else None.

(** A similarity that ranks every chunk alike. *)
Definition by_position (q t : string) : Z := 0%Z.

(** ** Two backends

    [refusing] answers every statement that is left to it with
    [ClientError], as a backend does that finds the text malformed. *)
Definition refusing : Outside :=
  mkOutside (fun s => s)
            (fun _ _ _ => raise ClientError)
            (fun _ _ => raise ClientError)
            (fun _ _ => raise ClientError).

Fixpoint marks (n : nat) : string :=
  match n with
  | O => EmptyString
  | S n' => String "r"%char (marks n')
  end.

(** [splicing] runs one more text as Neo4j reads it,
    [MERGE (a)-[r:X{P:RAND()}]->(b)]: the type is [X] and the map asks for
    a property [P] with the value of [rand()], a new number at each
    evaluation, so no relationship of the store matches and one is
    created.  The n-th value is written as n marks. *)
Definition splicing : Outside :=
  mkOutside (fun s => s)
            (fun text source target g =>
               match source, target with
               | JStr a, JStr b =>
                   if String.eqb text (edge_query "X{P:RAND()}")
                      && has_entity a (entities g)
                      && has_entity b (entities g)
                   then (mkStore (entities g)
                                 (edges g
                                  ++ [mkEdge a "X" b
                                        [("P", marks (length (edges g)))]])
                                 (chunks g) (mentions g), inr tt)
                   else (g, inl ClientError)
               | _, _ => (g, inl ClientError)
               end)
            (fun _ _ => raise ClientError)
            (fun _ _ => raise ClientError).

(** * Definitions used in the statements *)

(** ** The effect of the loops on entities and edges *)

(** The entity writes [P], pairs of id and type, applied in order. *)
Definition merge_all (P : list (string * string)) (ents : list Entity)
  : list Entity :=
  fold_left (fun E p => merge_entity (fst p) (snd p) E) P ents.

(** The type the last write of [P] gives to id [i]. *)
Fixpoint last_type (P : list (string * string)) (i : string) : option string :=
  match P with
  | [] => None
  | (j, t) :: rest =>
      match last_type rest i with
      | Some t' => Some t'
      | None => if String.eqb i j then Some t else None
      end
  end.

(** An entity with the type that [P] leaves it. *)
Definition settle (P : list (string * string)) (e : Entity) : Entity :=
  match last_type P (ent_id e) with
  | Some t => mkEntity (ent_id e) t
  | None => e
  end.

(** The edge merges [R], triples of source, type and target, applied in
    order against the entities [ents]. *)
Definition merge_edges (ents : list Entity)
  (R : list (string * string * string)) (es : list Edge) : list Edge :=
  fold_left (fun es r => merge_edge ents (fst (fst r)) (snd (fst r)) (snd r) es)
            R es.

Definition linkable (ents : list Entity) (r : string * string * string) : bool :=
  has_entity (fst (fst r)) ents && has_entity (snd r) ents.

Definition present (es : list Edge) (r : string * string * string) : bool :=
  existsb (same_edge (fst (fst r)) (snd (fst r)) (snd r)) es.

(** The text id of a node object, if it has one. *)
Definition id_of (node : json) : list string :=
  match subscript node "id" with
  | inr (JStr i) => [i]
  | _ => []
  end.

(** The ids that the node list of an extraction names. *)
Definition emitted_ids (graph_data : json) : list string :=
  match dict_get graph_data "nodes" (JArr []) with
  | inr nodes =>
      match iterate nodes with
      | inr ns => flat_map id_of ns
      | inl _ => []
      end
  | inl _ => []
  end.

(** ** Concrete extractions *)

Definition node_obj (id ty : string) : json :=
  JObj [("id", JStr id); ("type", JStr ty)].

Definition rel_obj (source ty target : string) : json :=
  JObj [("source", JStr source); ("target", JStr target); ("type", JStr ty)].

Definition fragment (nodes rels : list json) : json :=
  JObj [("nodes", JArr nodes); ("relationships", JArr rels)].

(** Two documents: the first names Aris, the second names only Marcus
    and relates Aris to him. *)
Definition first_fragment : json := fragment [node_obj "Aris" "Person"] [].

Definition second_fragment : json :=
  fragment [node_obj "Marcus" "Person"] [rel_obj "Aris" "RELATED" "Marcus"].

Definition after_first : Store :=
  fst (ingest_evidence literal_match refusing "data/a.txt" "Aris left early."
                       (Loaded first_fragment) empty_store).

Definition after_second : Store :=
  fst (ingest_evidence literal_match refusing "data/b.txt" "Marcus met Aris."
                       (Loaded second_fragment) after_first).

(** ** Retrieval and the alphabet of relationship types *)

(** The facts that the traversal gives for one retrieved chunk. *)
Definition chunk_facts (g : Store) (c : Chunk) : list string :=
  map fact_of (firstn 20 (two_hop_rows g (chunk_text c))).

(** The chunks that the similarity search hands to the loop. *)
Definition retrieved (score : string -> string -> Z) (query : string)
  (g : Store) : list Chunk :=
  firstn 5 (rank score query (chunks g)).

(** The piece of context text that line 165 writes for a chunk. *)
Definition labelled (c : Chunk) : string :=
  ("EVIDENCE FILE (" ++ chunk_source c ++ "): " ++ chunk_text c ++ nl ++ nl)%string.

Definition sentence : string :=
  "Aris gave Marcus the poison. Marcus had a motive against Helena.".

Definition case_fragment : json :=
  fragment
    [node_obj "Aris" "Person"; node_obj "Marcus" "Person";
     node_obj "Helena" "Person"; node_obj "poison" "Object"]
    [rel_obj "Aris" "RELATED" "Marcus"; rel_obj "Marcus" "RELATED" "Helena";
     rel_obj "Marcus" "POSSESSES" "poison"].

Definition after_case : Store :=
  fst (ingest_evidence literal_match refusing "data/case.txt" sentence
                       (Loaded case_fragment) empty_store).

Definition case_query : string := "Why did Marcus want to hurt Helena?".

(** Upper-case letters, digits and the underscore. *)
Definition in_alphabet (c : ascii) : bool :=
  is_upper c || is_digit c || Ascii.eqb c "_"%char.

Definition fits_alphabet (s : string) : bool := forall_chars in_alphabet s.

Definition unsafe_fragment : json :=
  fragment [node_obj "Aris" "Person"; node_obj "Marcus" "Person"]
           [rel_obj "Aris" "a;b" "Marcus"].

(** The characters of a type that the normalization handles. *)
Definition plain_char (c : ascii) : bool :=
  is_lower c || is_upper c || is_digit c || Ascii.eqb c "_"%char
  || Ascii.eqb c " "%char || Ascii.eqb c "-"%char.

(** The shape that the specification asks of an extraction:
    [{nodes: list of {id, type},
      relationships: list of {source, target, type}}]. *)
Definition has_keys (keys : list string) (v : json) : bool :=
  match v with
  | JObj fields =>
      forallb (fun k => match assoc k fields with
                        | Some _ => true
                        | None => false
                        end) keys
  | _ => false
  end.

Definition strict_shape (v : json) : bool :=
  match v with
  | JObj fields =>
      match assoc "nodes" fields, assoc "relationships" fields with
      | Some (JArr ns), Some (JArr rs) =>
          forallb (has_keys ["id"; "type"]) ns
          && forallb (has_keys ["source"; "target"; "type"]) rs
      | _, _ => false
      end
  | _ => false
  end.

(** A node object without its id. *)
Definition headless_fragment : json :=
  fragment [JObj [("type", JStr "Person")]] [].

(** ** The page ([main])

    Streamlit runs [main] once for each thing the user does.  The page
    keeps three values between the runs; one run handles one event. *)

Record Message : Type := mkMessage { role : string; content : string }.

Record Session : Type := mkSession {
  vector_store : option string;
  ingested : bool;
  messages : list Message
}.

(** The session and the graph database that the page works on. *)
Record App : Type := mkApp { session : Session; graph : Store }.

(** Lines 234-239. *)
Definition initial_session : Session := mkSession None false [].

(** A file of [data/*.txt] as the ingestion meets it: its path, what
    reading it gives, whether the vector store accepts its chunk, and what
    the extraction request gives: an exception, or what [json.loads]
    makes of the backend's answer. *)
Record DataFile : Type := mkDataFile {
  file_path : string;
  file_read : result string;
  file_accepted : bool;
  file_answer : result loads_result
}.

Inductive Event : Type :=
| PressIngest (data_files : list DataFile)
| PressClear
| Submit (question : string).

(** The chunk that the ingestion of [f] writes, if it gets that far. *)
Definition chunk_of (f : DataFile) : list Chunk :=
  match file_read f with
  | inr text => if file_accepted f then [mkChunk text (file_path f)] else []
  | inl _ => []
  end.

Section Page.

Variable regex_match : string -> string -> option bool.
Variable out : Outside.
Variable score : string -> string -> Z.
Variable set_order : list string -> list string.
Variable generate_content : string -> string.

(** Lines 259-260: the loop under the Ingest button.  An exception
    leaves the loop with the session as the files before it set it. *)
Fixpoint ingest_files (data_files : list DataFile) (a : App)
  : App * result unit :=
  match data_files with
  | [] => (a, inr tt)
  | f :: rest =>
      match ingest_steps regex_match out (file_path f) (file_read f)
                         (file_accepted f) (file_answer f) (graph a) with
      | (g, inr handle) =>
          ingest_files rest
            (mkApp (mkSession (Some handle) (ingested (session a))
                              (messages (session a))) g)
      | (g, inl e) => (mkApp (session a) g, inl e)
      end
  end.

(** Lines 256-264. *)
Definition press_ingest (data_files : list DataFile) (a : App)
  : App * result unit :=
  match data_files with
  | [] => (a, inr tt)
  | _ :: _ =>
      match ingest_files data_files a with
      | (a', inr _) =>
          (mkApp (mkSession (vector_store (session a')) true
                            (messages (session a'))) (graph a'),
           inr tt)
      | (a', inl e) => (a', inl e)
      end
  end.

(** Lines 270-272. *)
Definition press_clear (a : App) : App :=
  mkApp (mkSession (vector_store (session a)) (ingested (session a)) [])
        (graph a).

(** Lines 283-312.  The value is the list of connections shown in the
    expander.  A missing handle makes [investigate_case] fail on its
    first line with [AttributeError]. *)
Definition submit (question : string) (a : App)
  : App * result (list string) :=
  match question with
  | EmptyString => (a, inr [])
  | String _ _ =>
      if negb (ingested (session a)) then (a, inr [])
      else
        let asked :=
          mkSession (vector_store (session a)) (ingested (session a))
                    (messages (session a) ++ [mkMessage "user" question]) in
        match vector_store (session a) with
        | None => (mkApp asked (graph a), inl AttributeError)
        | Some _ =>
            match investigate_case score question (graph a) with
            | (g, inr (evidence_text, connections)) =>
                let shown :=
                  match connections with
                  | [] => []
                  | _ :: _ => set_order (firstn 10 connections)
                  end in
                let verdict :=
                  solve_crime set_order generate_content question
                              evidence_text connections in
                (mkApp (mkSession (vector_store asked) (ingested asked)
                                  (messages asked
                                   ++ [mkMessage "assistant" verdict])) g,
                 inr shown)
            | (g, inl e) => (mkApp asked g, inl e)
            end
        end
  end.

(** One run of the page. *)
Definition handle (ev : Event) (a : App) : App :=
  match ev with
  | PressIngest data_files => fst (press_ingest data_files a)
  | PressClear => press_clear a
  | Submit question => fst (submit question a)
  end.

Definition run (evs : list Event) (a : App) : App :=
  fold_left (fun a ev => handle ev a) evs a.

End Page.

(** A store is well formed when its edges join entities and its MENTIONS
    links go from a chunk of the index to an entity. *)
Definition well_formed (g : Store) : Prop :=
  (forall e, In e (edges g) ->
             has_entity (edge_src e) (entities g) = true
             /\ has_entity (edge_dst e) (entities g) = true)
  /\ (forall m, In m (mentions g) ->
                fst m < length (chunks g)
                /\ has_entity (snd m) (entities g) = true).

(** The node list that writes the pairs [P] of id and type. *)
Definition nodes_of (P : list (string * string)) : list json :=
  map (fun p => node_obj (fst p) (snd p)) P.

(** [g'] holds everything that [g] holds: the entities by id, the
    edges, the MENTIONS links, and the chunks at their positions. *)
Definition grows (g g' : Store) : Prop :=
  (forall i, has_entity i (entities g) = true ->
             has_entity i (entities g') = true)
  /\ incl (edges g) (edges g')
  /\ incl (mentions g) (mentions g')
  /\ (forall n c, nth_error (chunks g) n = Some c ->
                  nth_error (chunks g') n = Some c).

(** The pattern that line 137 builds for an entity id. *)
Definition mention_pattern (id : string) : string :=
  ("(?i).*" ++ id ++ ".*")%string.

(** What line 123 does to one character. *)
Definition sanitize_char (c : ascii) : ascii :=
  let u := upper_char c in
  let v := if Ascii.eqb u " "%char then "_"%char else u in
  if Ascii.eqb v "-"%char then "_"%char else v.

Definition loose_file : DataFile :=
  mkDataFile "data/a.txt" (inr "Aris left early.") true
             (inr (Loaded first_fragment)).

Definition broken_file : DataFile :=
  mkDataFile "data/b.txt" (inr "Marcus met Aris.") true
             (inr (Loaded headless_fragment)).

Definition case_file : DataFile :=
  mkDataFile "data/case.txt" (inr sentence) true
             (inr (Loaded case_fragment)).

(** ** Tame extractions

    An extraction is tame when every statement it leads to is one the
    code means: the ids and types of its nodes are text, the ends of its
    relationships are text, and their types are ASCII and normalize to
    Cypher names.  A node or a relationship on which Python raises before
    a statement is sent is tame. *)
Definition is_text (v : json) : bool :=
  match v with
  | JStr _ => true
  | _ => false
  end.

Definition tame_node (node : json) : bool :=
  match subscript node "id" with
  | inr id =>
      is_text id
      && match subscript node "type" with
         | inr ty => is_text ty
         | inl _ => true
         end
  | inl _ => true
  end.

Definition tame_rel (rel : json) : bool :=
  match subscript rel "type" with
  | inr (JStr ty) =>
      match subscript rel "source", subscript rel "target" with
      | inr source, inr target =>
          is_text source && is_text target
          && is_ascii ty && cypher_name (sanitize ty)
      | _, _ => true
      end
  | _ => true
  end.

(** The list that the loop over [graph_data.get(key, [])] goes through. *)
Definition items (graph_data : json) (key : string) : list json :=
  match dict_get graph_data key (JArr []) with
  | inr v =>
      match iterate v with
      | inr l => l
      | inl _ => []
      end
  | inl _ => []
  end.

Definition tame (graph_data : json) : bool :=
  forallb tame_node (items graph_data "nodes")
  && forallb tame_rel (items graph_data "relationships").

Definition tame_answer (answer : result loads_result) : bool :=
  match answer with
  | inr response => tame (extract_graph_schema response)
  | inl _ => true
  end.

Definition tame_file (f : DataFile) : bool := tame_answer (file_answer f).

Definition tame_event (ev : Event) : bool :=
  match ev with
  | PressIngest data_files => forallb tame_file data_files
  | _ => true
  end.

(** The handle is there whenever the evidence is marked as loaded. *)
Definition handle_when_loaded (ss : Session) : Prop :=
  ingested ss = true -> vector_store ss <> None.

(** What tells one relationship from another: its ends and its type. *)
Definition edge_key (e : Edge) : string * string * string :=
  (edge_src e, edge_label e, edge_dst e).

(** No two edges with the same ends and type, no MENTIONS link twice. *)
Definition links_distinct (g : Store) : Prop :=
  NoDup (map edge_key (edges g)) /\ NoDup (mentions g).

(** A relationship whose type carries a property map. *)
Definition spliced_fragment : json :=
  fragment [node_obj "Aris" "Person"; node_obj "Marcus" "Person"]
           [rel_obj "Aris" "x{p:rand()}" "Marcus"].

(** * Properties *)

(** ** Merging entities *)

Lemma set_type_id id ty e : ent_id (set_type id ty e) = ent_id e.
Proof. unfold set_type. destruct (String.eqb (ent_id e) id); reflexivity. Qed.

Lemma has_entity_set_type i id ty ents :
  has_entity i (map (set_type id ty) ents) = has_entity i ents.
Proof.
  unfold has_entity. induction ents as [|e ents IH]; simpl.
  - reflexivity.
  - rewrite set_type_id, IH. reflexivity.
Qed.

Lemma has_entity_merge i id ty ents :
  has_entity i (merge_entity id ty ents)
  = has_entity i ents || String.eqb id i.
Proof.
  unfold merge_entity. destruct (has_entity id ents) eqn:Hid.
  - rewrite has_entity_set_type.
    destruct (String.eqb_spec id i) as [->|_].
    + rewrite Hid. reflexivity.
    + rewrite orb_false_r. reflexivity.
  - unfold has_entity. rewrite existsb_app. simpl.
    rewrite orb_false_r. reflexivity.
Qed.

Lemma has_entity_merge_all i P ents :
  has_entity i (merge_all P ents)
  = has_entity i ents || existsb (fun p => String.eqb (fst p) i) P.
Proof.
  unfold merge_all. revert ents.
  induction P as [|[j t] P IH]; intros ents; simpl.
  - rewrite orb_false_r. reflexivity.
  - rewrite IH, has_entity_merge, orb_assoc. reflexivity.
Qed.

Lemma merge_all_snoc P p ents :
  merge_all (P ++ [p]) ents = merge_entity (fst p) (snd p) (merge_all P ents).
Proof. unfold merge_all. rewrite fold_left_app. reflexivity. Qed.

Lemma last_type_snoc P j t i :
  last_type (P ++ [(j, t)]) i
  = if String.eqb i j then Some t else last_type P i.
Proof.
  induction P as [|[k u] P IH]; simpl.
  - reflexivity.
  - rewrite IH. destruct (String.eqb i j); reflexivity.
Qed.

Lemma has_entity_false_id i ents e :
  has_entity i ents = false -> In e ents -> String.eqb (ent_id e) i = false.
Proof.
  unfold has_entity. intros H Hin.
  destruct (String.eqb (ent_id e) i) eqn:E; [|reflexivity].
  assert (existsb (fun e => String.eqb (ent_id e) i) ents = true) as C
      by (apply existsb_exists; exists e; auto).
  congruence.
Qed.

(** After the writes of [P], every entity carries the type of the last
    write to its id. *)
Lemma merge_all_last_type P ents e t :
  In e (merge_all P ents) -> last_type P (ent_id e) = Some t -> ent_type e = t.
Proof.
  revert e t. induction P as [|[j u] P IH] using rev_ind; intros e t Hin Hlast.
  - discriminate.
  - rewrite merge_all_snoc in Hin. rewrite last_type_snoc in Hlast.
    simpl in Hin. unfold merge_entity in Hin.
    destruct (has_entity j (merge_all P ents)) eqn:Hj.
    + apply in_map_iff in Hin. destruct Hin as [e0 [<- Hin0]].
      unfold set_type in *.
      destruct (String.eqb (ent_id e0) j) eqn:E; simpl in *.
      * rewrite E in Hlast. congruence.
      * rewrite E in Hlast. eauto.
    + apply in_app_or in Hin. destruct Hin as [Hin|[<-|[]]].
      * rewrite (has_entity_false_id _ _ _ Hj Hin) in Hlast. eauto.
      * simpl in *. rewrite String.eqb_refl in Hlast. congruence.
Qed.

Lemma settle_set_type j t P e :
  settle P (set_type j t e) = settle ((j, t) :: P) e.
Proof.
  unfold settle. rewrite set_type_id. simpl.
  destruct (last_type P (ent_id e)); [reflexivity|].
  unfold set_type. destruct (String.eqb (ent_id e) j); reflexivity.
Qed.

(** On a store that already holds every id of [P], merging [P] only
    rewrites types. *)
Lemma merge_all_settle P ents :
  (forall p, In p P -> has_entity (fst p) ents = true) ->
  merge_all P ents = map (settle P) ents.
Proof.
  revert ents. induction P as [|[j t] P IH]; intros ents Hall.
  - simpl. symmetry. apply map_id.
  - change (merge_all ((j, t) :: P) ents)
      with (merge_all P (merge_entity j t ents)).
    unfold merge_entity.
    pose proof (Hall (j, t) (or_introl eq_refl)) as Hj. simpl in Hj.
    rewrite Hj. rewrite IH.
    + rewrite map_map. apply map_ext. intros e. apply settle_set_type.
    + intros p Hp. rewrite has_entity_set_type. apply Hall. right. exact Hp.
Qed.

Lemma merge_all_idempotent P ents :
  merge_all P (merge_all P ents) = merge_all P ents.
Proof.
  rewrite merge_all_settle.
  - rewrite <- (map_id (merge_all P ents)) at 2.
    apply map_ext_in. intros e Hin. unfold settle.
    destruct (last_type P (ent_id e)) as [t|] eqn:Hl; [|reflexivity].
    rewrite <- (merge_all_last_type _ _ _ _ Hin Hl). destruct e; reflexivity.
  - intros p Hp. rewrite has_entity_merge_all.
    apply orb_true_iff. right. apply existsb_exists. exists p. split; auto.
    apply String.eqb_refl.
Qed.

(** Merging keeps the ids of the entities distinct. *)
Lemma nodup_snoc {A} (l : list A) (x : A) :
  ~ In x l -> NoDup l -> NoDup (l ++ [x]).
Proof.
  induction l as [|a l IH]; intros Hx Hl; simpl.
  - constructor; [intros []|constructor].
  - inversion Hl as [|a' l' Ha Hl']; subst. constructor.
    + intros Hin. apply in_app_or in Hin. destruct Hin as [Hin|[->|[]]].
      * exact (Ha Hin).
      * apply Hx. left. reflexivity.
    + apply IH; [|exact Hl']. intros Hin. apply Hx. right. exact Hin.
Qed.

Lemma merge_entity_unique id ty ents :
  NoDup (map ent_id ents) -> NoDup (map ent_id (merge_entity id ty ents)).
Proof.
  intros Hl. unfold merge_entity. destruct (has_entity id ents) eqn:Hid.
  - rewrite map_map.
    rewrite (map_ext _ ent_id (fun e => set_type_id id ty e)). exact Hl.
  - rewrite map_app. simpl. apply nodup_snoc; [|exact Hl].
    intros Hin. apply in_map_iff in Hin. destruct Hin as [e [He Hin]].
    pose proof (has_entity_false_id _ _ _ Hid Hin) as Hne.
    rewrite He, String.eqb_refl in Hne. discriminate Hne.
Qed.

Lemma merge_all_unique P ents :
  NoDup (map ent_id ents) -> NoDup (map ent_id (merge_all P ents)).
Proof.
  unfold merge_all. revert ents.
  induction P as [|[i t] P IH]; intros ents Hl; simpl.
  - exact Hl.
  - apply IH. apply merge_entity_unique. exact Hl.
Qed.

(** ** Merging edges *)

Lemma same_edge_refl a l b props : same_edge a l b (mkEdge a l b props) = true.
Proof. unfold same_edge. simpl. rewrite !String.eqb_refl. reflexivity. Qed.

Lemma merge_edge_keeps ents a l b es r :
  present es r = true -> present (merge_edge ents a l b es) r = true.
Proof.
  unfold merge_edge, present. intros H.
  destruct (has_entity a ents && has_entity b ents); [|exact H].
  destruct (existsb (same_edge a l b) es); [exact H|].
  rewrite existsb_app, H. reflexivity.
Qed.

Lemma merge_edges_keeps ents R es r :
  present es r = true -> present (merge_edges ents R es) r = true.
Proof.
  unfold merge_edges. revert es.
  induction R as [|[[a l] b] R IH]; intros es H; simpl.
  - exact H.
  - apply IH. apply merge_edge_keeps. exact H.
Qed.

Lemma merge_edges_covers ents R es r :
  In r R -> linkable ents r = true -> present (merge_edges ents R es) r = true.
Proof.
  revert es. induction R as [|[[a l] b] R IH]; intros es Hin Hl.
  - destruct Hin.
  - destruct Hin as [<-|Hin].
    + apply (merge_edges_keeps ents R). unfold linkable in Hl. simpl in Hl.
      unfold present, merge_edge. simpl. rewrite Hl.
      destruct (existsb (same_edge a l b) es) eqn:E; [exact E|].
      rewrite existsb_app. simpl. rewrite same_edge_refl.
      rewrite orb_true_r. reflexivity.
    + apply (IH _ Hin Hl).
Qed.

Lemma merge_edges_fixed ents R es :
  (forall r, In r R -> linkable ents r = true -> present es r = true) ->
  merge_edges ents R es = es.
Proof.
  induction R as [|[[a l] b] R IH]; intros H.
  - reflexivity.
  - change (merge_edges ents ((a, l, b) :: R) es)
      with (merge_edges ents R (merge_edge ents a l b es)).
    assert (merge_edge ents a l b es = es) as ->.
    { unfold merge_edge.
      destruct (has_entity a ents && has_entity b ents) eqn:Hl; [|reflexivity].
      specialize (H (a, l, b) (or_introl eq_refl) Hl).
      unfold present in H. simpl in H. rewrite H. reflexivity. }
    apply IH. intros r Hr. apply H. right. exact Hr.
Qed.

Lemma merge_edges_idempotent ents R es :
  merge_edges ents R (merge_edges ents R es) = merge_edges ents R es.
Proof.
  apply merge_edges_fixed. intros r Hin Hl. apply merge_edges_covers; assumption.
Qed.

Lemma merge_edge_incl ents a l b es : incl es (merge_edge ents a l b es).
Proof.
  unfold merge_edge.
  destruct (has_entity a ents && has_entity b ents); [|apply incl_refl].
  destruct (existsb (same_edge a l b) es); [apply incl_refl|].
  apply incl_appl, incl_refl.
Qed.

Lemma merge_edges_incl ents R es : incl es (merge_edges ents R es).
Proof.
  unfold merge_edges. revert es.
  induction R as [|[[a l] b] R IH]; intros es; simpl.
  - apply incl_refl.
  - eapply incl_tran; [apply merge_edge_incl|apply IH].
Qed.

Lemma has_entity_merge_all_mono i P ents :
  has_entity i ents = true -> has_entity i (merge_all P ents) = true.
Proof. intros H. rewrite has_entity_merge_all, H. reflexivity. Qed.

Lemma merge_mention_in i id ms m :
  In m (merge_mention i id ms) <-> In m ms \/ m = (i, id).
Proof.
  unfold merge_mention.
  destruct (existsb (same_mention i id) ms) eqn:E.
  - split; [auto|]. intros [H| ->]; [exact H|].
    apply existsb_exists in E. destruct E as [[j x] [Hin Hs]].
    unfold same_mention in Hs. simpl in Hs.
    apply andb_true_iff in Hs. destruct Hs as [Hj Hx].
    apply Nat.eqb_eq in Hj. apply String.eqb_eq in Hx. subst. exact Hin.
  - rewrite in_app_iff. simpl. intuition.
Qed.

Lemma fold_merge_mention_in id found ms m :
  In m (fold_left (fun ms i => merge_mention i id ms) found ms)
  <-> In m ms \/ (snd m = id /\ In (fst m) found).
Proof.
  revert ms. induction found as [|i found IH]; intros ms; simpl.
  - intuition.
  - rewrite IH, merge_mention_in. split.
    + intros [[H| ->]|[H1 H2]]; auto.
    + intros [H|[H1 [H2|H2]]]; auto.
      left. right. destruct m as [j x]. simpl in *. subst. reflexivity.
Qed.

(** ** What the three loops of [ingest_evidence] do to the store *)

Ltac step_result :=
  unfold bind, lift, modify, ret; simpl.

Lemma sanitize_upper up :
  replace "-"%char "_"%char (replace " "%char "_"%char (upper up))
  = sanitize up.
Proof. reflexivity. Qed.

Section Loops.

Variable regex_match : string -> string -> option bool.
Variable out : Outside.

Lemma node_step_cases node :
  tame_node node = true ->
  (exists e, forall g, node_step out node g = (g, inl e)) \/
  (exists i t,
      id_of node = [i] /\
      forall g,
        node_step out node g
        = (mkStore (merge_entity i t (entities g)) (edges g) (chunks g)
                   (mentions g), inr tt)).
Proof.
  unfold node_step, run_merge_entity, id_of, tame_node. intros Htame.
  destruct (subscript node "id") as [e|id]; [left; exists e; reflexivity|].
  destruct (subscript node "type") as [e|ty]; [left; exists e; reflexivity|].
  destruct id as [|?|?|i|?|?]; try discriminate Htame.
  destruct ty as [|?|?|t|?|?]; try discriminate Htame.
  right. exists i, t. split; reflexivity.
Qed.

Lemma nodes_loop_spec nodes :
  forallb tame_node nodes = true ->
  exists P r,
    incl (map fst P) (flat_map id_of nodes) /\
    forall g,
      for_each (node_step out) nodes g
      = (mkStore (merge_all P (entities g)) (edges g) (chunks g) (mentions g),
         r).
Proof.
  induction nodes as [|node rest IH]; intros Htame.
  - exists [], (inr tt). split; [apply incl_nil_l|].
    intros [E Es C Ms]. reflexivity.
  - simpl in Htame. apply andb_true_iff in Htame.
    destruct Htame as [Hnode Hrest].
    destruct (IH Hrest) as [P [r [Hincl Hloop]]].
    destruct (node_step_cases node Hnode) as [[e He]|[i [t [Hid Hit]]]].
    + exists [], (inl e). split; [apply incl_nil_l|].
      intros g. simpl. unfold bind. rewrite He. destruct g; reflexivity.
    + exists ((i, t) :: P), r. split.
      * simpl. rewrite Hid. simpl. apply incl_cons; [left; reflexivity|].
        apply incl_tl. exact Hincl.
      * intros g. simpl. unfold bind. rewrite Hit, Hloop. reflexivity.
Qed.

Lemma rel_step_cases rel :
  tame_rel rel = true ->
  (exists e, forall g, rel_step out rel g = (g, inl e)) \/
  (exists a ty b,
      subscript rel "type" = inr (JStr ty)
      /\ subscript rel "source" = inr (JStr a)
      /\ subscript rel "target" = inr (JStr b)
      /\ is_ascii ty = true /\ cypher_name (sanitize ty) = true
      /\ forall g,
          rel_step out rel g
          = (mkStore (entities g)
                     (merge_edge (entities g) a (sanitize ty) b (edges g))
                     (chunks g) (mentions g), inr tt)).
Proof.
  unfold rel_step, run_merge_edge, tame_rel, str_upper, py_upper.
  intros Htame.
  destruct (subscript rel "type") as [e|ty];
    [left; exists e; reflexivity|].
  destruct ty as [|?|?|ty|?|?];
    try (left; exists AttributeError; reflexivity).
  destruct (subscript rel "source") as [e|src];
    [left; exists e; reflexivity|].
  destruct (subscript rel "target") as [e|dst];
    [left; exists e; reflexivity|].
  destruct src as [|?|?|a|?|?]; try discriminate Htame.
  destruct dst as [|?|?|b|?|?]; try discriminate Htame.
  simpl in Htame. apply andb_true_iff in Htame.
  destruct Htame as [Hascii Hname].
  right. exists a, ty, b. repeat (split; [reflexivity || assumption|]).
  intros g. step_result. rewrite Hascii. cbv beta iota.
  rewrite sanitize_upper, Hname. reflexivity.
Qed.

Lemma rels_loop_spec rels :
  forallb tame_rel rels = true ->
  exists R r, forall g,
    for_each (rel_step out) rels g
    = (mkStore (entities g) (merge_edges (entities g) R (edges g))
               (chunks g) (mentions g), r).
Proof.
  induction rels as [|rel rest IH]; intros Htame.
  - exists [], (inr tt). intros [E Es C Ms]. reflexivity.
  - simpl in Htame. apply andb_true_iff in Htame.
    destruct Htame as [Hrel Hrest]. destruct (IH Hrest) as [R [r Hloop]].
    destruct (rel_step_cases rel Hrel)
      as [[e He]|[a [ty [b [_ [_ [_ [_ [_ Hrun]]]]]]]]].
    + exists [], (inl e). intros g. simpl. unfold bind. rewrite He.
      destruct g; reflexivity.
    + exists ((a, sanitize ty, b) :: R), r. intros g. simpl. unfold bind.
      rewrite Hrun, Hloop. reflexivity.
Qed.

(** The chunks that the [WHERE] selects are those, and only those, of
    the index that the pattern matches and that contain the sample. *)
Lemma matching_chunks_in pattern sample cs :
  forall n found,
    matching_chunks regex_match pattern sample n cs = inr found ->
    forall i,
      In i found <->
      n <= i /\ exists c,
        nth_error cs (i - n) = Some c
        /\ regex_match pattern (chunk_text c) = Some true
        /\ contains (chunk_text c) sample = true.
Proof.
  induction cs as [|c rest IH]; intros n found Hm i; simpl in Hm.
  - inversion Hm; subst. simpl. split; [intros []|].
    intros [_ [c [Hc _]]]. destruct (i - n); discriminate Hc.
  - destruct (regex_match pattern (chunk_text c)) as [hit|] eqn:Hhit;
      [|discriminate Hm].
    destruct (matching_chunks regex_match pattern sample (S n) rest)
      as [e|found'] eqn:Hrest; [discriminate Hm|].
    specialize (IH (S n) found' Hrest i).
    assert (In i found <->
            (i = n /\ hit && contains (chunk_text c) sample = true)
            \/ In i found') as Hsplit.
    { inversion Hm; subst.
      destruct (hit && contains (chunk_text c) sample); simpl.
      - intuition.
      - split; [auto|]. intros [[_ H]|H]; [discriminate H|exact H]. }
    rewrite Hsplit, IH. clear Hsplit IH Hm. split.
    + intros [[-> Hboth]|[Hle [c' [Hc' Hrest']]]].
      * split; [lia|]. exists c. rewrite Nat.sub_diag. simpl.
        apply andb_true_iff in Hboth. destruct Hboth as [-> Hc].
        auto.
      * split; [lia|]. exists c'.
        replace (i - n) with (S (i - S n)) by lia. simpl. auto.
    + intros [Hle [c' [Hc' [Hre Hco]]]].
      destruct (Nat.eq_dec i n) as [->|Hne].
      * left. rewrite Nat.sub_diag in Hc'. simpl in Hc'.
        inversion Hc'; subst. split; [reflexivity|].
        rewrite Hhit in Hre. inversion Hre; subst. rewrite Hco. reflexivity.
      * right. split; [lia|]. exists c'.
        replace (i - n) with (S (i - S n)) in Hc' by lia. simpl in Hc'. auto.
Qed.

(** What one pass of the MENTIONS statement does. *)
Lemma mention_step_cases text node g :
  tame_node node = true ->
  (exists r, mention_step regex_match out text node g = (g, r)
             /\ (r = inr tt ->
                 forall id, id_of node = [id] ->
                            has_entity id (entities g) = false))
  \/
  (exists id found,
      id_of node = [id]
      /\ has_entity id (entities g) = true
      /\ matching_chunks regex_match (mention_pattern id) (take 100 text) 0
                         (chunks g) = inr found
      /\ mention_step regex_match out text node g
         = (mkStore (entities g) (edges g) (chunks g)
                    (fold_left (fun ms i => merge_mention i id ms)
                               found (mentions g)),
            inr tt)).
Proof.
  unfold mention_step, run_link_mentions, id_of, mention_pattern, tame_node.
  intros Htame.
  destruct (subscript node "id") as [e|v].
  { left. exists (inl e). split; [reflexivity|]. intros H. discriminate H. }
  destruct v as [|?|?|id|?|?]; try discriminate Htame.
  cbv beta iota delta [bind lift].
  destruct (matching_chunks regex_match ("(?i).*" ++ id ++ ".*")
                            (take 100 text) 0 (chunks g)) as [e|found] eqn:Hm.
  { left. exists (inl e). split; [reflexivity|]. intros H. discriminate H. }
  destruct (has_entity id (entities g)) eqn:Hid.
  - right. exists id, found. repeat split; assumption.
  - left. exists (inr tt). split; [reflexivity|].
    intros _ id' Hid'. inversion Hid'; subst. exact Hid.
Qed.

Lemma mention_step_effect text node g g' r :
  tame_node node = true ->
  mention_step regex_match out text node g = (g', r) ->
  entities g' = entities g /\ edges g' = edges g /\ chunks g' = chunks g
  /\ incl (mentions g) (mentions g')
  /\ forall m, In m (mentions g') ->
       In m (mentions g)
       \/ (has_entity (snd m) (entities g) = true
           /\ exists c,
               nth_error (chunks g) (fst m) = Some c
               /\ regex_match (mention_pattern (snd m)) (chunk_text c)
                  = Some true
               /\ contains (chunk_text c) (take 100 text) = true).
Proof.
  intros Htame Hstep.
  destruct (mention_step_cases text node g Htame)
    as [[r0 [H0 _]]|[id [found [_ [Hid [Hm Hrun]]]]]].
  - rewrite H0 in Hstep. inversion Hstep; subst.
    repeat split; try apply incl_refl. intros m Hin. left. exact Hin.
  - rewrite Hrun in Hstep. inversion Hstep; subst. simpl.
    repeat split.
    + intros m Hin. apply fold_merge_mention_in. left. exact Hin.
    + intros m Hin. apply fold_merge_mention_in in Hin.
      destruct Hin as [Hin|[Hsnd Hfound]]; [left; exact Hin|].
      right. rewrite Hsnd. split; [exact Hid|].
      apply (matching_chunks_in _ _ _ _ _ Hm) in Hfound.
      destruct Hfound as [_ [c Hc]]. rewrite Nat.sub_0_r in Hc.
      exists c. exact Hc.
Qed.

Lemma mentions_loop_effect text nodes :
  forallb tame_node nodes = true ->
  forall g g' r,
    for_each (mention_step regex_match out text) nodes g = (g', r) ->
    entities g' = entities g /\ edges g' = edges g /\ chunks g' = chunks g
    /\ incl (mentions g) (mentions g')
    /\ forall m, In m (mentions g') ->
         In m (mentions g)
         \/ (has_entity (snd m) (entities g) = true
             /\ exists c,
                 nth_error (chunks g) (fst m) = Some c
                 /\ regex_match (mention_pattern (snd m)) (chunk_text c)
                    = Some true
                 /\ contains (chunk_text c) (take 100 text) = true).
Proof.
  induction nodes as [|node rest IH]; intros Htame g g' r Hloop.
  - inversion Hloop; subst. repeat split; try apply incl_refl.
    intros m Hin. left. exact Hin.
  - simpl in Htame. apply andb_true_iff in Htame.
    destruct Htame as [Hnode Hrest].
    simpl in Hloop. unfold bind in Hloop.
    destruct (mention_step regex_match out text node g) as [g1 r1] eqn:Hstep.
    apply (mention_step_effect _ _ _ _ _ Hnode) in Hstep.
    destruct Hstep as (He & Hd & Hc & Hi & Ho).
    destruct r1 as [e|[]].
    + inversion Hloop; subst. repeat split; assumption.
    + apply (IH Hrest) in Hloop.
      destruct Hloop as (He' & Hd' & Hc' & Hi' & Ho').
      repeat split; try congruence.
      * eapply incl_tran; eassumption.
      * intros m Hin. apply Ho' in Hin. destruct Hin as [Hin|Hin].
        -- apply Ho. exact Hin.
        -- right. rewrite He, Hc in Hin. exact Hin.
Qed.

Lemma mentions_loop_frame text nodes g :
  forallb tame_node nodes = true ->
  exists ms r,
    for_each (mention_step regex_match out text) nodes g
    = (mkStore (entities g) (edges g) (chunks g) ms, r).
Proof.
  intros Htame.
  destruct (for_each (mention_step regex_match out text) nodes g)
    as [g' r] eqn:Hloop.
  destruct (mentions_loop_effect text nodes Htame _ _ _ Hloop)
    as (He & Hd & Hc & _).
  exists (mentions g'), r. rewrite <- He, <- Hd, <- Hc.
  destruct g'; reflexivity.
Qed.

(** When the loop ends without an exception, each node whose entity is
    there is linked to every chunk that the statement selects. *)
Lemma mentions_loop_complete text nodes :
  forallb tame_node nodes = true ->
  forall g g' node id i c,
    for_each (mention_step regex_match out text) nodes g = (g', inr tt) ->
    In node nodes -> id_of node = [id] ->
    has_entity id (entities g) = true ->
    nth_error (chunks g) i = Some c ->
    regex_match (mention_pattern id) (chunk_text c) = Some true ->
    contains (chunk_text c) (take 100 text) = true ->
    In (i, id) (mentions g').
Proof.
  induction nodes as [|node0 rest IH];
    intros Htame g g' node id i c Hloop Hin Hnode Hid Hc Hre Hco.
  - destruct Hin.
  - simpl in Htame. apply andb_true_iff in Htame.
    destruct Htame as [Hnode0 Hrest].
    simpl in Hloop. unfold bind in Hloop.
    destruct (mention_step regex_match out text node0 g) as [g1 r1] eqn:Hstep.
    destruct r1 as [e|[]]; [discriminate Hloop|].
    pose proof (mention_step_effect _ _ _ _ _ Hnode0 Hstep)
      as (He & _ & Hch & _ & _).
    destruct Hin as [->|Hin].
    + destruct (mentions_loop_effect _ _ Hrest _ _ _ Hloop)
        as (_ & _ & _ & Hi & _).
      apply Hi.
      destruct (mention_step_cases text node g Hnode0)
        as [[r0 [H0 Hno]]|[id' [found [Hid' [_ [Hm Hrun]]]]]].
      * rewrite H0 in Hstep. inversion Hstep; subst.
        rewrite (Hno eq_refl id Hnode) in Hid. discriminate Hid.
      * rewrite Hnode in Hid'. inversion Hid'; subst id'.
        rewrite Hrun in Hstep. inversion Hstep; subst. simpl.
        apply fold_merge_mention_in. right. simpl. split; [reflexivity|].
        apply (matching_chunks_in _ _ _ _ _ Hm).
        split; [lia|]. exists c. rewrite Nat.sub_0_r. auto.
    + apply (IH Hrest g1 g' node id i c Hloop Hin Hnode).
      * rewrite He. exact Hid.
      * rewrite Hch. exact Hc.
      * exact Hre.
      * exact Hco.
Qed.

(** *** The stages of an ingestion *)

Lemma ingest_evidence_stages file_path text_data response g :
  ingest_evidence regex_match out file_path text_data response g
  = let graph_data := extract_graph_schema response in
    let g0 := mkStore (entities g) (edges g)
                      (chunks g ++ [mkChunk text_data file_path])
                      (mentions g) in
    match dict_get graph_data "nodes" (JArr []) with
    | inl e => (g0, inl e)
    | inr nodes =>
        match iterate nodes with
        | inl e => (g0, inl e)
        | inr ns =>
            match for_each (node_step out) ns g0 with
            | (g1, inl e) => (g1, inl e)
            | (g1, inr _) =>
                match dict_get graph_data "relationships" (JArr []) with
                | inl e => (g1, inl e)
                | inr rels =>
                    match iterate rels with
                    | inl e => (g1, inl e)
                    | inr rs =>
                        match for_each (rel_step out) rs g1 with
                        | (g2, inl e) => (g2, inl e)
                        | (g2, inr _) =>
                            match for_each
                                    (mention_step regex_match out text_data)
                                    ns g2 with
                            | (g3, inl e) => (g3, inl e)
                            | (g3, inr _) => (g3, inr index_name)
                            end
                        end
                    end
                end
            end
        end
    end.
Proof.
  unfold ingest_evidence, ingest_steps, from_documents. step_result.
  destruct (dict_get (extract_graph_schema response) "nodes" (JArr []))
    as [e|nodes]; [reflexivity|]. simpl.
  destruct (iterate nodes) as [e|ns]; [reflexivity|]. simpl.
  match goal with
  | |- context [for_each (node_step out) ns ?g0] =>
      destruct (for_each (node_step out) ns g0) as [g1 [e|[]]]
  end; [reflexivity|].
  destruct (dict_get (extract_graph_schema response) "relationships" (JArr []))
    as [e|rels]; [reflexivity|]. simpl.
  destruct (iterate rels) as [e|rs]; [reflexivity|]. simpl.
  destruct (for_each (rel_step out) rs g1) as [g2 [e|[]]]; [reflexivity|].
  destruct (for_each (mention_step regex_match out text_data) ns g2)
    as [g3 [e|[]]]; reflexivity.
Qed.

Lemma tame_items graph_data :
  tame graph_data = true ->
  (forall nodes ns,
      dict_get graph_data "nodes" (JArr []) = inr nodes ->
      iterate nodes = inr ns -> forallb tame_node ns = true)
  /\ (forall rels rs,
        dict_get graph_data "relationships" (JArr []) = inr rels ->
        iterate rels = inr rs -> forallb tame_rel rs = true).
Proof.
  unfold tame, items. intros H. apply andb_true_iff in H.
  destruct H as [Hn Hr]. split.
  - intros nodes ns Hd Hi. rewrite Hd, Hi in Hn. exact Hn.
  - intros rels rs Hd Hi. rewrite Hd, Hi in Hr. exact Hr.
Qed.

(** A property that each stage of the ingestion keeps is kept by the
    ingestion. *)
Lemma ingest_stagewise (Q : Store -> Prop) file_path text_data response g :
  tame (extract_graph_schema response) = true ->
  Q (mkStore (entities g) (edges g)
             (chunks g ++ [mkChunk text_data file_path]) (mentions g)) ->
  (forall ns g0, forallb tame_node ns = true ->
                 Q g0 -> Q (fst (for_each (node_step out) ns g0))) ->
  (forall rs g0, forallb tame_rel rs = true ->
                 Q g0 -> Q (fst (for_each (rel_step out) rs g0))) ->
  (forall ns g0,
      forallb tame_node ns = true ->
      Q g0 ->
      Q (fst (for_each (mention_step regex_match out text_data) ns g0))) ->
  Q (fst (ingest_evidence regex_match out file_path text_data response g)).
Proof.
  intros Htame H0 Hn Hr Hm. rewrite ingest_evidence_stages. cbv zeta.
  destruct (tame_items _ Htame) as [Htn Htr].
  destruct (dict_get (extract_graph_schema response) "nodes" (JArr []))
    as [e|nodes]; [exact H0|].
  destruct (iterate nodes) as [e|ns] eqn:Hns; [exact H0|].
  specialize (Htn nodes ns eq_refl Hns).
  specialize (Hn ns _ Htn H0).
  destruct (for_each (node_step out) ns _) as [g1 [e|[]]]; [exact Hn|].
  simpl in Hn.
  destruct (dict_get (extract_graph_schema response) "relationships" (JArr []))
    as [e|rels]; [exact Hn|].
  destruct (iterate rels) as [e|rs] eqn:Hrs; [exact Hn|].
  specialize (Htr rels rs eq_refl Hrs).
  specialize (Hr rs _ Htr Hn).
  destruct (for_each (rel_step out) rs g1) as [g2 [e|[]]]; [exact Hr|].
  simpl in Hr. specialize (Hm ns _ Htn Hr).
  destruct (for_each (mention_step regex_match out text_data) ns g2)
    as [g3 [e|[]]]; exact Hm.
Qed.

(** The graph that one ingestion leaves: the entity writes [P] and
    the edge merges [R] are fixed by the extraction alone. *)
Lemma ingest_graph_effect file_path text_data response :
  tame (extract_graph_schema response) = true ->
  exists P R,
    incl (map fst P) (emitted_ids (extract_graph_schema response)) /\
    forall g,
      let g' :=
        fst (ingest_evidence regex_match out file_path text_data response g) in
      entities g' = merge_all P (entities g)
      /\ edges g' = merge_edges (merge_all P (entities g)) R (edges g)
      /\ chunks g' = chunks g ++ [mkChunk text_data file_path].
Proof.
  intros Htame. destruct (tame_items _ Htame) as [Htn Htr].
  unfold emitted_ids.
  destruct (dict_get (extract_graph_schema response) "nodes" (JArr []))
    as [e|nodes] eqn:Hn;
    [exists [], []; split; [apply incl_nil_l|]; intros g;
     rewrite ingest_evidence_stages; cbv zeta; rewrite Hn; repeat split|].
  destruct (iterate nodes) as [e|ns] eqn:Hns;
    [exists [], []; split; [apply incl_nil_l|]; intros g;
     rewrite ingest_evidence_stages; cbv zeta; rewrite Hn, Hns;
     repeat split|].
  specialize (Htn nodes ns eq_refl Hns).
  destruct (nodes_loop_spec ns Htn) as [P [rn [Hincl Hloop]]].
  destruct rn as [e|[]];
    [exists P, []; split; [exact Hincl|]; intros g;
     rewrite ingest_evidence_stages; cbv zeta; rewrite Hn, Hns, Hloop;
     repeat split|].
  destruct (dict_get (extract_graph_schema response) "relationships" (JArr []))
    as [e|rels] eqn:Hr;
    [exists P, []; split; [exact Hincl|]; intros g;
     rewrite ingest_evidence_stages; cbv zeta; rewrite Hn, Hns, Hloop, Hr;
     repeat split|].
  destruct (iterate rels) as [e|rs] eqn:Hrs;
    [exists P, []; split; [exact Hincl|]; intros g;
     rewrite ingest_evidence_stages; cbv zeta;
     rewrite Hn, Hns, Hloop, Hr, Hrs; repeat split|].
  specialize (Htr rels rs eq_refl Hrs).
  destruct (rels_loop_spec rs Htr) as [R [rr Hrel]].
  exists P, R. split; [exact Hincl|].
  intros g. rewrite ingest_evidence_stages. cbv zeta.
  rewrite Hn, Hns, Hloop, Hr, Hrs, Hrel.
  destruct rr as [e|[]]; [repeat split|].
  match goal with
  | |- context [for_each (mention_step regex_match out text_data) ns ?g0] =>
      destruct (mentions_loop_frame text_data ns g0 Htn) as [ms [r ->]]
  end.
  destruct r as [e|[]]; repeat split.
Qed.

End Loops.
(** ** Ingestion *)

(** C1.  Two ingestions of one document with one extraction do not
    always leave the graph of one ingestion.  Line 123 keeps the braces,
    the colon and the parentheses of a type, so for the type
    [x{p:rand()}] the statement of lines 126-129 reads
    [MERGE (a)-[r:X{P:RAND()}]->(b)], whatever the backend: a
    relationship of type [X] with a property that no stored relationship
    has.  On the backend that runs the statement so, the first ingestion
    leaves one relationship from Aris to Marcus and the second leaves
    two, with the same entities. *)
Theorem spliced_type_breaks_idempotence :
  let once :=
    fst (ingest_evidence literal_match splicing "data/d.txt"
                         "Aris saw Marcus." (Loaded spliced_fragment)
                         empty_store) in
  let twice :=
    fst (ingest_evidence literal_match splicing "data/d.txt"
                         "Aris saw Marcus." (Loaded spliced_fragment) once) in
  sanitize "x{p:rand()}" = "X{P:RAND()}"
  /\ cypher_name "X{P:RAND()}" = false
  /\ (forall out g,
        rel_step out (rel_obj "Aris" "x{p:rand()}" "Marcus") g
        = run_edge_text out
            (nl ++ "                MATCH (a:Entity {id: $source}), (b:Entity {id: $target})"
                ++ nl ++ "                MERGE (a)-[r:X{P:RAND()}]->(b)"
                ++ nl ++ "            ")%string
            (JStr "Aris") (JStr "Marcus") g)
  /\ entities twice = entities once
  /\ edges once = [mkEdge "Aris" "X" "Marcus" [("P", EmptyString)]]
  /\ edges twice = [mkEdge "Aris" "X" "Marcus" [("P", EmptyString)];
                    mkEdge "Aris" "X" "Marcus" [("P", "r")]]
  /\ edges twice <> edges once.
Proof.
  intros once twice.
  split; [reflexivity|]. split; [reflexivity|]. split; [reflexivity|].
  split; [reflexivity|]. split; [reflexivity|]. split; [reflexivity|].
  intros H. apply (f_equal (@length Edge)) in H. vm_compute in H.
  discriminate H.
Qed.

Lemma merge_edges_origin ents R es e :
  In e (merge_edges ents R es) ->
  In e es \/
  (has_entity (edge_src e) ents = true /\ has_entity (edge_dst e) ents = true).
Proof.
  unfold merge_edges. revert es.
  induction R as [|[[a l] b] R IH]; intros es Hin; simpl in Hin.
  - left. exact Hin.
  - apply IH in Hin. destruct Hin as [Hin|Hin]; [|right; exact Hin].
    unfold merge_edge in Hin.
    destruct (has_entity a ents && has_entity b ents) eqn:Hl;
      [|left; exact Hin].
    destruct (existsb (same_edge a l b) es); [left; exact Hin|].
    apply in_app_or in Hin. destruct Hin as [Hin|[<-|[]]];
      [left; exact Hin|].
    right. simpl. apply andb_true_iff in Hl. exact Hl.
Qed.

Lemma merged_entity_origin i P ents :
  has_entity i (merge_all P ents) = true ->
  has_entity i ents = true \/ In i (map fst P).
Proof.
  rewrite has_entity_merge_all. intros H.
  apply orb_true_iff in H. destruct H as [H|H]; [left; exact H|].
  right. apply existsb_exists in H. destruct H as [p [Hp Heq]].
  apply String.eqb_eq in Heq. subst i. apply in_map. exact Hp.
Qed.

(** Entity ids stay unique through an ingestion. *)
Lemma ingest_keeps_ids_unique regex_match out file_path text_data response g :
  tame (extract_graph_schema response) = true ->
  NoDup (map ent_id (entities g)) ->
  NoDup (map ent_id
           (entities (fst (ingest_evidence regex_match out file_path text_data
                                           response g)))).
Proof.
  intros Htame Hl.
  destruct (ingest_graph_effect regex_match out file_path text_data response
                                Htame)
    as [P [R [_ H]]].
  destruct (H g) as [He _]. rewrite He. apply merge_all_unique. exact Hl.
Qed.

(** C6, as stated, fails: the second ingestion creates the edge from
    Aris to Marcus although its node list does not name Aris; the node
    was left by the first ingestion. *)
Lemma edge_to_earlier_entity :
  let e := mkEdge "Aris" "RELATED" "Marcus" [] in
  In e (edges after_second)
  /\ ~ In e (edges after_first)
  /\ ~ In (edge_src e) (emitted_ids second_fragment).
Proof.
  split; [|split].
  - vm_compute. left. reflexivity.
  - vm_compute. intros [].
  - vm_compute. intros [H|[]]. discriminate H.
Qed.

(** C6, amended.  For an extraction whose ids are text and whose
    relationship types are ASCII and normalize to Cypher names: an edge
    that an ingestion adds joins two ids each of which either was an
    Entity of the store before the ingestion or is named in the node list
    of that extraction; a relationship with an end that is neither is not
    created. *)
Theorem new_edges_join_known_entities
  (regex_match : string -> string -> option bool) (out : Outside)
  (file_path text_data : string) (response : loads_result) (g : Store)
  (e : Edge) :
  let graph_data := extract_graph_schema response in
  let known i :=
    has_entity i (entities g) = true \/ In i (emitted_ids graph_data) in
  tame graph_data = true ->
  In e (edges (fst (ingest_evidence regex_match out file_path text_data
                                    response g))) ->
  In e (edges g) \/ (known (edge_src e) /\ known (edge_dst e)).
Proof.
  intros graph_data known Htame Hin.
  destruct (ingest_graph_effect regex_match out file_path text_data response
                                Htame)
    as [P [R [Hincl H]]].
  destruct (H g) as [_ [Hd _]]. rewrite Hd in Hin.
  apply merge_edges_origin in Hin. destruct Hin as [Hin|[Hs Ht]];
    [left; exact Hin|].
  right. unfold known.
  split.
  - destruct (merged_entity_origin _ _ _ Hs) as [Hk|Hk]; [left; exact Hk|].
    right. apply Hincl. exact Hk.
  - destruct (merged_entity_origin _ _ _ Ht) as [Hk|Hk]; [left; exact Hk|].
    right. apply Hincl. exact Hk.
Qed.

Lemma new_edges_join_known_entities_witness :
  let e := mkEdge "Aris" "RELATED" "Marcus" [] in
  tame second_fragment = true /\
  In e (edges after_second) /\
  (In e (edges after_first) \/
   ((has_entity "Aris" (entities after_first) = true
     \/ In "Aris" (emitted_ids second_fragment)) /\
    (has_entity "Marcus" (entities after_first) = true
     \/ In "Marcus" (emitted_ids second_fragment)))).
Proof.
  assert (In (mkEdge "Aris" "RELATED" "Marcus" []) (edges after_second)) as Hin
      by (vm_compute; left; reflexivity).
  split; [reflexivity|]. split; [exact Hin|].
  exact (new_edges_join_known_entities literal_match refusing "data/b.txt"
           "Marcus met Aris." (Loaded second_fragment) after_first _
           eq_refl Hin).
Defined.

(** C7.  The edge upsert does not always merge an edge of the
    normalized type between two entities that exist.  The type [a;b]
    is normalized to [A;B] and written into the statement, which then
    reads [MERGE (a)-[r:A;B]->(b)], whatever the backend; that is no
    relationship pattern.  On the backend that refuses it the upsert
    raises and the store is as it was: no edge from Aris to Marcus,
    although both are entities of the store. *)
Theorem unsafe_type_upsert_merges_no_edge :
  let rel := rel_obj "Aris" "a;b" "Marcus" in
  has_entity "Aris" (entities after_second) = true
  /\ has_entity "Marcus" (entities after_second) = true
  /\ cypher_name (sanitize "a;b") = false
  /\ (forall out g,
        rel_step out rel g
        = run_edge_text out
            (nl ++ "                MATCH (a:Entity {id: $source}), (b:Entity {id: $target})"
                ++ nl ++ "                MERGE (a)-[r:A;B]->(b)"
                ++ nl ++ "            ")%string
            (JStr "Aris") (JStr "Marcus") g)
  /\ rel_step refusing rel after_second = (after_second, inl ClientError)
  /\ existsb (same_edge "Aris" (sanitize "a;b") "Marcus")
             (edges (fst (rel_step refusing rel after_second))) = false.
Proof.
  intros rel.
  split; [reflexivity|]. split; [reflexivity|]. split; [reflexivity|].
  split; [intros out g; reflexivity|]. split; reflexivity.
Qed.

(** ** Retrieval *)

Lemma investigate_loop_result results context_text graph_context g :
  investigate_loop results context_text graph_context g
  = (g, inr (fold_left (fun acc c => (acc ++ labelled c)%string)
                       results context_text,
             graph_context ++ concat (map (chunk_facts g) results))).
Proof.
  revert context_text graph_context.
  induction results as [|c rest IH]; intros context_text graph_context.
  - simpl. rewrite app_nil_r. reflexivity.
  - simpl. unfold bind, run_two_hop. rewrite IH.
    rewrite <- app_assoc. reflexivity.
Qed.

Lemma investigate_case_result score query g :
  investigate_case score query g
  = (g, inr (fold_left (fun acc c => (acc ++ labelled c)%string)
                       (retrieved score query g) EmptyString,
             concat (map (chunk_facts g) (retrieved score query g)))).
Proof.
  unfold investigate_case, similarity_search, bind.
  rewrite investigate_loop_result. reflexivity.
Qed.

(** C10.  Retrieval reads the store and leaves it as it found it: the
    similarity search and every traversal statement return the store they
    were given, so no node, relationship, MENTIONS link or property
    changes. *)
Theorem investigate_case_read_only
  (score : string -> string -> Z) (query : string) (g : Store) :
  fst (investigate_case score query g) = g
  /\ (forall k, fst (similarity_search score query k g) = g)
  /\ (forall text, fst (run_two_hop text g) = g).
Proof.
  rewrite investigate_case_result. repeat split.
Qed.

Lemma in_firstn {A} (n : nat) (l : list A) (x : A) :
  In x (firstn n l) -> In x l.
Proof.
  intros H. rewrite <- (firstn_skipn n l). apply in_or_app. left. exact H.
Qed.

Lemma hops_sound node es j r x :
  In (j, r, x) (hops node es) ->
  In r es /\ edge_label r = "RELATED" /\ other_end node r = Some x.
Proof.
  unfold hops, indexed. intros H. apply in_flat_map in H.
  destruct H as [[k e] [Hin H]]. simpl in H.
  destruct (String.eqb_spec (edge_label e) "RELATED") as [Hl|]; [|destruct H].
  destruct (other_end node e) as [y|] eqn:Ho; [|destruct H].
  destruct H as [H|[]]. inversion H; subst.
  split; [apply (in_combine_r _ _ _ _ Hin)|]. split; assumption.
Qed.

(** A row of the traversal is a path of two RELATED edges of the store,
    from an entity that a chunk with the given text mentions. *)
Lemma two_hop_rows_sound g text row :
  In row (two_hop_rows g text) ->
  (exists i, In (i, start_id row) (mentions g)) /\
  exists e1 e2,
    In e1 (edges g) /\ In e2 (edges g) /\
    edge_label e1 = "RELATED" /\ edge_label e2 = "RELATED" /\
    other_end (start_id row) e1 = Some (middle_id row) /\
    other_end (middle_id row) e2 = Some (end_id row) /\
    r1_type row = prop_lookup "type" (edge_props e1) /\
    r2_type row = prop_lookup "type" (edge_props e2).
Proof.
  unfold two_hop_rows. intros H. apply in_flat_map in H.
  destruct H as [[i c] [_ H]]. simpl in H.
  destruct (String.eqb (chunk_text c) text); [|destruct H].
  apply in_flat_map in H. destruct H as [[i' s] [Hm H]]. simpl in H.
  destruct (Nat.eqb i' i); [|destruct H].
  unfold paths_from in H. apply in_flat_map in H.
  destruct H as [[[j r1] mid] [H1 H]].
  apply in_flat_map in H. destruct H as [[[k r2] en] [H2 H]].
  destruct (Nat.eqb j k); [destruct H|]. destruct H as [<-|[]]. simpl.
  apply hops_sound in H1. apply hops_sound in H2.
  destruct H1 as [? [? ?]]. destruct H2 as [? [? ?]].
  split; [exists i'; exact Hm|]. exists r1, r2. repeat split; assumption.
Qed.

(** C8.  Retrieval returns, for each retrieved chunk, the facts of one
    traversal.  There are at most 20 of them, and each one is the text
    [start --[rel1]--> middle --[rel2]--> end] of a path of two RELATED
    relationships of the store: [start] is an entity that a chunk
    mentions, the first relationship joins [start] and [middle], the
    second joins [middle] and [end], and [rel1] and [rel2] are what Python
    prints for the property [type] of the first and of the second. *)
Theorem traversal_bound_and_shape
  (score : string -> string -> Z) (query : string) (g : Store) :
  exists context_text,
    investigate_case score query g
    = (g, inr (context_text,
               concat (map (chunk_facts g) (retrieved score query g))))
    /\ forall c, In c (retrieved score query g) ->
         length (chunk_facts g c) <= 20
         /\ forall fact, In fact (chunk_facts g c) ->
              exists s m e e1 e2,
                fact = (s ++ " --["
                          ++ py_str (prop_lookup "type" (edge_props e1))
                          ++ "]--> " ++ m ++ " --["
                          ++ py_str (prop_lookup "type" (edge_props e2))
                          ++ "]--> " ++ e)%string
                /\ (exists i, In (i, s) (mentions g))
                /\ In e1 (edges g) /\ In e2 (edges g)
                /\ edge_label e1 = "RELATED" /\ edge_label e2 = "RELATED"
                /\ other_end s e1 = Some m /\ other_end m e2 = Some e.
Proof.
  eexists. split; [apply investigate_case_result|].
  intros c _. unfold chunk_facts. split.
  - rewrite length_map. apply firstn_le_length.
  - intros fact Hin. apply in_map_iff in Hin. destruct Hin as [row [<- Hin]].
    apply in_firstn in Hin. apply two_hop_rows_sound in Hin.
    destruct Hin as [Hm [e1 [e2 H]]].
    destruct H as (H1 & H2 & Hl1 & Hl2 & Ho1 & Ho2 & Hr1 & Hr2).
    exists (start_id row), (middle_id row), (end_id row), e1, e2.
    split; [unfold fact_of, fact_string; rewrite Hr1, Hr2; reflexivity|].
    split; [exact Hm|]. repeat split; assumption.
Qed.

Lemma traversal_bound_and_shape_witness :
  let c := mkChunk sentence "data/case.txt" in
  let fact := "Aris --[None]--> Marcus --[None]--> Helena" in
  In c (retrieved by_position case_query after_case)
  /\ In fact (chunk_facts after_case c)
  /\ length (chunk_facts after_case c) <= 20
  /\ exists s m e e1 e2,
       fact = (s ++ " --[" ++ py_str (prop_lookup "type" (edge_props e1))
                 ++ "]--> " ++ m ++ " --["
                 ++ py_str (prop_lookup "type" (edge_props e2))
                 ++ "]--> " ++ e)%string
       /\ (exists i, In (i, s) (mentions after_case))
       /\ In e1 (edges after_case) /\ In e2 (edges after_case)
       /\ edge_label e1 = "RELATED" /\ edge_label e2 = "RELATED"
       /\ other_end s e1 = Some m /\ other_end m e2 = Some e.
Proof.
  intros c fact.
  assert (In c (retrieved by_position case_query after_case)) as Hin
      by (vm_compute; left; reflexivity).
  assert (In fact (chunk_facts after_case c)) as Hfact
      by (vm_compute; left; reflexivity).
  split; [exact Hin|]. split; [exact Hfact|].
  destruct (traversal_bound_and_shape by_position case_query after_case)
    as [context_text [_ H]].
  split; [exact (proj1 (H c Hin))|exact (proj2 (H c Hin) fact Hfact)].
Defined.
(** The ingestion of a tame extraction creates relationships without
    properties, so on a store built by such ingestions the property read
    [r.type] of line 173 is null, and every fact shows [None] where the
    relationship was to be named. *)
Lemma merge_edges_no_property ents R es e :
  In e (merge_edges ents R es) -> In e es \/ edge_props e = [].
Proof.
  unfold merge_edges. revert es.
  induction R as [|[[a l] b] R IH]; intros es Hin; simpl in Hin.
  - left. exact Hin.
  - apply IH in Hin. destruct Hin as [Hin|Hin]; [|right; exact Hin].
    unfold merge_edge in Hin.
    destruct (has_entity a ents && has_entity b ents); [|left; exact Hin].
    destruct (existsb (same_edge a l b) es); [left; exact Hin|].
    apply in_app_or in Hin. destruct Hin as [Hin|[<-|[]]];
      [left; exact Hin|right; reflexivity].
Qed.

Lemma ingest_keeps_edges_bare regex_match out file_path text_data response g :
  tame (extract_graph_schema response) = true ->
  (forall e, In e (edges g) -> edge_props e = []) ->
  forall e,
    In e (edges (fst (ingest_evidence regex_match out file_path text_data
                                      response g))) ->
    edge_props e = [].
Proof.
  intros Htame Hbare e Hin.
  destruct (ingest_graph_effect regex_match out file_path text_data response
                                Htame)
    as [P [R [_ H]]].
  destruct (H g) as [_ [Hd _]]. rewrite Hd in Hin.
  apply merge_edges_no_property in Hin. destruct Hin; auto.
Qed.

Lemma bare_edges_give_none g c fact :
  (forall e, In e (edges g) -> edge_props e = []) ->
  In fact (chunk_facts g c) ->
  exists s m e, fact = fact_string s "None" m "None" e.
Proof.
  intros Hbare Hin. unfold chunk_facts in Hin.
  apply in_map_iff in Hin. destruct Hin as [row [<- Hin]].
  apply in_firstn in Hin. apply two_hop_rows_sound in Hin.
  destruct Hin as [_ [e1 [e2 [H1 [H2 [_ [_ [_ [_ [Hr1 Hr2]]]]]]]]]].
  exists (start_id row), (middle_id row), (end_id row).
  unfold fact_of. rewrite Hr1, Hr2, (Hbare _ H1), (Hbare _ H2). reflexivity.
Qed.

(** C2.  The scenario on the code: after ingesting the sentence with the
    given extraction into an empty store, retrieval returns the ingested
    sentence in its context text and two facts, both written with [None]
    in place of the relationship; the fact
    [Aris --[RELATED]--> Marcus --[RELATED]--> Helena] is not among
    them. *)
Theorem marcus_case_facts_show_none (score : string -> string -> Z) :
  investigate_case score case_query after_case
  = (after_case,
     inr (labelled (mkChunk sentence "data/case.txt"),
          ["Aris --[None]--> Marcus --[None]--> Helena";
           "Helena --[None]--> Marcus --[None]--> Aris"]))
  /\ contains (labelled (mkChunk sentence "data/case.txt")) sentence = true
  /\ ~ In "Aris --[RELATED]--> Marcus --[RELATED]--> Helena"
         (concat (map (chunk_facts after_case)
                      (retrieved score case_query after_case))).
Proof.
  assert (retrieved score case_query after_case
          = [mkChunk sentence "data/case.txt"]) as Hhits by reflexivity.
  split; [|split].
  - rewrite investigate_case_result, Hhits. vm_compute. reflexivity.
  - vm_compute. reflexivity.
  - rewrite Hhits. vm_compute. intros [H|[H|[]]]; discriminate H.
Qed.

(** ** Relationship types *)

(** C3.  The normalization on the code: [has motive] becomes
    [HAS_MOTIVE], but a character other than a space or a hyphen is kept,
    so [a;b] becomes [A;B], which leaves the alphabet of upper-case
    letters, digits and underscores, and that is the text written into
    the edge statement, whatever the backend then does with it. *)
Theorem sanitize_keeps_other_characters :
  sanitize "has motive" = "HAS_MOTIVE"
  /\ sanitize "a;b" = "A;B"
  /\ fits_alphabet (sanitize "a;b") = false
  /\ contains (edge_query (sanitize "a;b")) "MERGE (a)-[r:A;B]->(b)" = true
  /\ forall out g,
       for_each (rel_step out) (items unsafe_fragment "relationships") g
       = (run_edge_text out (edge_query "A;B") (JStr "Aris") (JStr "Marcus") ;;;
          ret tt) g.
Proof.
  split; [reflexivity|]. split; [reflexivity|]. split; [reflexivity|].
  split; [reflexivity|]. intros out g. reflexivity.
Qed.

Lemma sanitize_char_fits c :
  plain_char c = true ->
  in_alphabet
    ((fun c => if Ascii.eqb c "-"%char then "_"%char else c)
       ((fun c => if Ascii.eqb c " "%char then "_"%char else c)
          (upper_char c))) = true.
Proof.
  destruct c as [[] [] [] [] [] [] [] []]; vm_compute;
    intros H; try reflexivity; discriminate H.
Qed.

(** On types written with letters, digits, underscores, spaces and
    hyphens the normalization does stay inside the alphabet. *)
Lemma sanitize_plain_fits s :
  forall_chars plain_char s = true -> fits_alphabet (sanitize s) = true.
Proof.
  unfold fits_alphabet, sanitize, replace, upper.
  induction s as [|c s IH]; simpl; intros H.
  - reflexivity.
  - apply andb_true_iff in H. destruct H as [Hc Hs].
    rewrite (sanitize_char_fits c Hc), (IH Hs). reflexivity.
Qed.

(** ** Extraction failures *)

Section Ranking.

Variable score : string -> string -> Z.
Variable query : string.

Lemma insert_by_score_in c l x :
  In x (insert_by_score score query c l) <-> x = c \/ In x l.
Proof.
  induction l as [|d l IH]; simpl.
  - intuition.
  - destruct (score query (chunk_text d) <? score query (chunk_text c))%Z;
      simpl; [intuition|]. rewrite IH. intuition.
Qed.

Lemma rank_in l x : In x (rank score query l) <-> In x l.
Proof.
  induction l as [|c l IH]; simpl.
  - reflexivity.
  - rewrite insert_by_score_in, IH. intuition.
Qed.




End Ranking.



Lemma for_each_raises {A} (body : A -> M unit) (l : list A) (x : A) :
  In x l ->
  (forall g, exists e, snd (body x g) = inl e) ->
  forall g, exists e, snd (for_each body l g) = inl e.
Proof.
  induction l as [|a l IH]; intros Hin Hx g.
  - destruct Hin.
  - simpl. unfold bind. destruct Hin as [->|Hin].
    + destruct (Hx g) as [e He].
      destruct (body x g) as [g1 [e'|[]]]; simpl in *.
      * exists e'. reflexivity.
      * discriminate He.
    + destruct (body a g) as [g1 [e'|[]]].
      * exists e'. reflexivity.
      * apply IH; assumption.
Qed.

Lemma node_without_key_raises out fields g :
  assoc "id" fields = None \/ assoc "type" fields = None ->
  exists e, snd (node_step out (JObj fields) g) = inl e.
Proof.
  unfold node_step. simpl. intros [H|H].
  - rewrite H. eexists. reflexivity.
  - destruct (assoc "id" fields); rewrite H; eexists; reflexivity.
Qed.

Lemma rel_without_key_raises out fields g :
  assoc "type" fields = None \/ assoc "source" fields = None
  \/ assoc "target" fields = None ->
  exists e, snd (rel_step out (JObj fields) g) = inl e.
Proof.
  unfold rel_step. simpl. intros H.
  destruct (assoc "type" fields) as [ty|]; [|eexists; reflexivity].
  unfold bind at 1. unfold lift at 1.
  unfold bind at 1. unfold lift at 1.
  destruct (str_upper out ty) as [e|up]; [eexists; reflexivity|].
  unfold bind at 1. unfold lift at 1.
  destruct (assoc "source" fields) as [src|]; [|eexists; reflexivity].
  unfold bind at 1. unfold lift at 1.
  destruct (assoc "target" fields) as [dst|]; [|eexists; reflexivity].
  destruct H as [H|[H|H]]; discriminate H.
Qed.

Lemma assoc_other k k' (v : json) fields :
  String.eqb k' k = false -> assoc k ((k', v) :: fields) = assoc k fields.
Proof. intros H. simpl. rewrite H. reflexivity. Qed.

(** C5, as stated, fails: an answer that parses but whose node lacks
    the id is outside the strict shape, and its ingestion raises
    [KeyError] where the empty result would have let it return. *)
Lemma missing_id_raises :
  strict_shape headless_fragment = false
  /\ (forall out,
        snd (ingest_evidence literal_match out "data/a.txt" "Aris left early."
                             (Loaded headless_fragment) empty_store)
        = inl (KeyError "id"))
  /\ (forall out,
        snd (ingest_evidence literal_match out "data/a.txt" "Aris left early."
                             (Loaded empty_result) empty_store)
        = inr index_name).
Proof. split; [reflexivity|]. split; intros out; reflexivity. Qed.

(** C5, amended.  A shape mismatch is not turned into the empty
    extraction result.  Of an answer that parses to an object, a missing
    [nodes] or [relationships] key is read as the empty list, so an
    object with neither is ingested as the empty result is, and the
    ingestion returns.  A node object without [id] or [type], and a
    relationship object without [type], [source] or [target], make the
    ingestion raise. *)
Theorem shape_mismatch_not_caught
  (regex_match : string -> string -> option bool) (out : Outside)
  (file_path text_data : string) (fields : list (string * json)) (g : Store) :
  let ingest v :=
    ingest_evidence regex_match out file_path text_data (Loaded v) g in
  (assoc "nodes" fields = None ->
   ingest (JObj fields) = ingest (JObj (("nodes", JArr []) :: fields)))
  /\ (assoc "relationships" fields = None ->
      ingest (JObj fields)
      = ingest (JObj (("relationships", JArr []) :: fields)))
  /\ (assoc "nodes" fields = None -> assoc "relationships" fields = None ->
      ingest (JObj fields) = ingest empty_result
      /\ snd (ingest (JObj fields)) = inr index_name)
  /\ (forall ns node,
        assoc "nodes" fields = Some (JArr ns) -> In (JObj node) ns ->
        assoc "id" node = None \/ assoc "type" node = None ->
        exists e, snd (ingest (JObj fields)) = inl e)
  /\ (forall rs rel,
        assoc "relationships" fields = Some (JArr rs) -> In (JObj rel) rs ->
        assoc "type" rel = None \/ assoc "source" rel = None
        \/ assoc "target" rel = None ->
        exists e, snd (ingest (JObj fields)) = inl e).
Proof.
  intros ingest. unfold ingest. clear ingest.
  split; [|split; [|split; [|split]]].
  - intros Hn. rewrite !ingest_evidence_stages. cbv zeta.
    unfold extract_graph_schema, dict_get.
    rewrite (assoc_other "relationships" "nodes") by reflexivity.
    rewrite Hn. reflexivity.
  - intros Hr. rewrite !ingest_evidence_stages. cbv zeta.
    unfold extract_graph_schema, dict_get.
    rewrite (assoc_other "nodes" "relationships") by reflexivity.
    rewrite Hr. reflexivity.
  - intros Hn Hr. rewrite !ingest_evidence_stages. cbv zeta.
    unfold extract_graph_schema, dict_get. rewrite Hn, Hr.
    split; reflexivity.
  - intros ns node Hn Hin Hkey. rewrite ingest_evidence_stages. cbv zeta.
    unfold extract_graph_schema, dict_get. rewrite Hn.
    cbv beta iota delta [iterate].
    match goal with
    | |- context [for_each (node_step out) ns ?g0] =>
        destruct (for_each_raises (node_step out) ns (JObj node) Hin
                    (fun g1 => node_without_key_raises out node g1 Hkey) g0)
          as [e He];
        destruct (for_each (node_step out) ns g0) as [g1 [e'|[]]]
    end; simpl in He; [|discriminate He].
    exists e'. reflexivity.
  - intros rs rel Hr Hin Hkey. rewrite ingest_evidence_stages. cbv zeta.
    destruct (dict_get (extract_graph_schema (Loaded (JObj fields))) "nodes"
                       (JArr [])) as [e|nodes]; [eexists; reflexivity|].
    destruct (iterate nodes) as [e|ns]; [eexists; reflexivity|].
    match goal with
    | |- context [for_each (node_step out) ns ?g0] =>
        destruct (for_each (node_step out) ns g0) as [g1 [e'|[]]]
    end; [eexists; reflexivity|].
    unfold extract_graph_schema, dict_get. rewrite Hr.
    cbv beta iota delta [iterate].
    destruct (for_each_raises (rel_step out) rs (JObj rel) Hin
                (fun g2 => rel_without_key_raises out rel g2 Hkey) g1)
      as [e He].
    destruct (for_each (rel_step out) rs g1) as [g2 [e'|[]]]; simpl in He;
      [|discriminate He].
    exists e'. reflexivity.
Qed.

Lemma shape_mismatch_not_caught_witness :
  let ingest v :=
    ingest_evidence literal_match refusing "data/a.txt" "Aris left early."
                    (Loaded v) empty_store in
  ingest (JObj []) = ingest empty_result
  /\ snd (ingest (JObj [])) = inr index_name
  /\ (exists e, snd (ingest headless_fragment) = inl e)
  /\ exists e,
       snd (ingest (fragment []
                      [JObj [("source", JStr "Aris");
                             ("target", JStr "Marcus")]])) = inl e.
Proof.
  intros ingest.
  split; [|split; [|split]].
  - apply (proj1 (proj2 (proj2 (shape_mismatch_not_caught literal_match
                                  refusing "data/a.txt" "Aris left early."
                                  [] empty_store))));
      reflexivity.
  - apply (proj1 (proj2 (proj2 (shape_mismatch_not_caught literal_match
                                  refusing "data/a.txt" "Aris left early."
                                  [] empty_store))));
      reflexivity.
  - apply (proj1 (proj2 (proj2 (proj2
             (shape_mismatch_not_caught literal_match refusing "data/a.txt"
                "Aris left early."
                [("nodes", JArr [JObj [("type", JStr "Person")]]);
                 ("relationships", JArr [])]
                empty_store))))
             [JObj [("type", JStr "Person")]] [("type", JStr "Person")]).
    + reflexivity.
    + left. reflexivity.
    + left. reflexivity.
  - apply (proj2 (proj2 (proj2 (proj2
             (shape_mismatch_not_caught literal_match refusing "data/a.txt"
                "Aris left early."
                [("nodes", JArr []);
                 ("relationships",
                  JArr [JObj [("source", JStr "Aris");
                              ("target", JStr "Marcus")]])]
                empty_store))))
             [JObj [("source", JStr "Aris"); ("target", JStr "Marcus")]]
             [("source", JStr "Aris"); ("target", JStr "Marcus")]).
    + reflexivity.
    + left. reflexivity.
    + left. reflexivity.
Defined.

(** ** The synthesizer *)

(** C9.  The prompt of the synthesizer is the text of lines 195-208
    with the facts of [set(facts)] in it, one per line: between the
    heading of the evidence board and the heading of the case files stand
    the lines of the set, joined by line breaks.  No line of the set is
    repeated and every fact of the list is among them once, however often
    the fact was found, so a path found through two retrieved chunks is
    in the prompt once. *)
Theorem prompt_lists_each_fact_once
  (set_order : list string -> list string)
  (generate_content : string -> string)
  (Hnodup : forall l, NoDup (set_order l))
  (Hsame : forall l x, In x (set_order l) <-> In x l)
  (query context_text : string) (graph_context : list string) :
  exists lines,
    solve_crime set_order generate_content query context_text graph_context
    = generate_content
        (nl
         ++ "    You are the genius high school detective Shinichi Kudo, currently in the body of a child named **Conan Edogawa**. " ++ nl
         ++ "    " ++ nl
         ++ "    Solve the mystery based strictly on the " ++ dq
         ++ "Evidence Board" ++ dq ++ " (Graph) and " ++ dq ++ "Case Files"
         ++ dq ++ " (Text)." ++ nl
         ++ "    " ++ nl
         ++ "    [The Evidence Board (Graph Connections)]" ++ nl
         ++ "    " ++ join nl lines ++ nl
         ++ "    " ++ nl
         ++ "    [Case Files (Text Evidence)]" ++ nl
         ++ "    " ++ context_text ++ nl
         ++ "    " ++ nl
         ++ "    MYSTERY TO SOLVE: " ++ query ++ nl
         ++ nl
         ++ "    ")%string
    /\ NoDup lines
    /\ (forall fact, In fact lines <-> In fact graph_context)
    /\ (forall fact, count_occ string_dec lines fact <= 1)
    /\ (forall fact,
          In fact graph_context -> count_occ string_dec lines fact = 1)
    /\ (forall first second fact,
          graph_context = first ++ second -> In fact first ->
          In fact second -> count_occ string_dec lines fact = 1).
Proof.
  exists (set_order graph_context).
  assert (forall fact,
             count_occ string_dec (set_order graph_context) fact <= 1) as Hle
      by (apply NoDup_count_occ; apply Hnodup).
  assert (forall fact,
             In fact graph_context ->
             count_occ string_dec (set_order graph_context) fact = 1) as Hone.
  { intros fact Hin. apply Hsame in Hin.
    apply (count_occ_In string_dec) in Hin. specialize (Hle fact). lia. }
  split; [reflexivity|]. split; [apply Hnodup|]. split; [apply Hsame|].
  split; [exact Hle|]. split; [exact Hone|].
  intros first second fact -> Hin _. apply Hone. apply in_or_app. left.
  exact Hin.
Qed.

Lemma prompt_lists_each_fact_once_witness :
  let fact := "Aris --[None]--> Marcus --[None]--> Helena" in
  exists lines,
    solve_crime (nodup string_dec) (fun p => p) case_query "Case closed."
                ([fact; "x"] ++ [fact])
    = (nl
       ++ "    You are the genius high school detective Shinichi Kudo, currently in the body of a child named **Conan Edogawa**. " ++ nl
       ++ "    " ++ nl
       ++ "    Solve the mystery based strictly on the " ++ dq
       ++ "Evidence Board" ++ dq ++ " (Graph) and " ++ dq ++ "Case Files"
       ++ dq ++ " (Text)." ++ nl
       ++ "    " ++ nl
       ++ "    [The Evidence Board (Graph Connections)]" ++ nl
       ++ "    " ++ join nl lines ++ nl
       ++ "    " ++ nl
       ++ "    [Case Files (Text Evidence)]" ++ nl
       ++ "    " ++ "Case closed." ++ nl
       ++ "    " ++ nl
       ++ "    MYSTERY TO SOLVE: " ++ case_query ++ nl
       ++ nl
       ++ "    ")%string
    /\ count_occ string_dec lines fact = 1.
Proof.
  intros fact.
  destruct (prompt_lists_each_fact_once (nodup string_dec) (fun p => p)
              (fun l => NoDup_nodup string_dec l)
              (fun l x => nodup_In string_dec l x)
              case_query "Case closed." ([fact; "x"] ++ [fact]))
    as [lines [Hp [_ [_ [_ [_ Htwice]]]]]].
  exists lines. split; [exact Hp|].
  apply (Htwice [fact; "x"] [fact] fact eq_refl).
  - left. reflexivity.
  - left. reflexivity.
Defined.

(** * Further properties of the code *)

(** ** Reading the file and storing the chunk *)

Lemma ingest_steps_cases regex_match out file_path read accepted answer g :
  ingest_steps regex_match out file_path read accepted answer g
  = match read with
    | inl e => (g, inl e)
    | inr text_data =>
        if accepted
        then match answer with
             | inl e =>
                 (mkStore (entities g) (edges g)
                          (chunks g ++ [mkChunk text_data file_path])
                          (mentions g), inl e)
             | inr response =>
                 ingest_evidence regex_match out file_path text_data response
                                 g
             end
        else (g, inl ServiceError)
    end.
Proof.
  destruct read as [e|text_data]; [reflexivity|].
  destruct accepted; [|reflexivity].
  destruct answer as [e|response]; reflexivity.
Qed.

(** A property that the new chunk keeps, and that an ingestion keeps
    when the file is read, the chunk stored and the extraction answered,
    is kept by every ingestion. *)
Lemma ingest_steps_keeps (Q : Store -> Prop) regex_match out file_path read
      accepted answer g :
  tame_answer answer = true ->
  Q g ->
  (forall text_data,
      Q (mkStore (entities g) (edges g)
                 (chunks g ++ [mkChunk text_data file_path]) (mentions g))) ->
  (forall text_data response,
      tame (extract_graph_schema response) = true ->
      Q (fst (ingest_evidence regex_match out file_path text_data response
                              g))) ->
  Q (fst (ingest_steps regex_match out file_path read accepted answer g)).
Proof.
  intros Htame Hg Hchunk H. rewrite ingest_steps_cases.
  destruct read as [e|text_data]; [exact Hg|].
  destruct accepted; [|exact Hg].
  destruct answer as [e|response]; [apply Hchunk|apply H; exact Htame].
Qed.

Lemma new_chunk_grows g c :
  grows g (mkStore (entities g) (edges g) (chunks g ++ [c]) (mentions g)).
Proof.
  unfold grows. simpl. repeat split; try apply incl_refl; auto.
  intros n d Hn. rewrite nth_error_app1; [exact Hn|].
  apply nth_error_Some. congruence.
Qed.

Lemma new_chunk_well_formed g c :
  well_formed g ->
  well_formed (mkStore (entities g) (edges g) (chunks g ++ [c]) (mentions g)).
Proof.
  intros [Hd Hm]. split; simpl; [exact Hd|].
  intros m Hin. destruct (Hm m Hin) as [Ha Hb].
  split; [|exact Hb]. rewrite length_app. simpl. lia.
Qed.

(** ** Nothing is deleted *)

Lemma grows_refl g : grows g g.
Proof.
  unfold grows. repeat split; try apply incl_refl; auto.
Qed.

Lemma grows_trans g1 g2 g3 : grows g1 g2 -> grows g2 g3 -> grows g1 g3.
Proof.
  unfold grows. intros (He & Hd & Hm & Hc) (He' & Hd' & Hm' & Hc').
  repeat split; auto.
  - eapply incl_tran; eassumption.
  - eapply incl_tran; eassumption.
Qed.

Section Growth.

Variable regex_match : string -> string -> option bool.
Variable out : Outside.

Lemma nodes_loop_grows ns g :
  forallb tame_node ns = true ->
  grows g (fst (for_each (node_step out) ns g)).
Proof.
  intros Htame.
  destruct (nodes_loop_spec out ns Htame) as [P [r [_ H]]]. rewrite H. simpl.
  unfold grows. simpl. repeat split; try apply incl_refl; auto.
  intros i. apply has_entity_merge_all_mono.
Qed.

Lemma rels_loop_grows rs g :
  forallb tame_rel rs = true ->
  grows g (fst (for_each (rel_step out) rs g)).
Proof.
  intros Htame.
  destruct (rels_loop_spec out rs Htame) as [R [r H]]. rewrite H. simpl.
  unfold grows. simpl. repeat split; try apply incl_refl; auto.
  apply merge_edges_incl.
Qed.

Lemma mentions_loop_grows text ns g :
  forallb tame_node ns = true ->
  grows g (fst (for_each (mention_step regex_match out text) ns g)).
Proof.
  intros Htame.
  destruct (for_each (mention_step regex_match out text) ns g)
    as [g' r] eqn:H.
  apply (mentions_loop_effect _ _ _ _ Htame) in H.
  destruct H as (He & Hd & Hc & Hi & _).
  unfold grows. simpl. rewrite He, Hd, Hc.
  repeat split; try apply incl_refl; auto.
Qed.

Lemma ingest_grows file_path text_data response g :
  tame (extract_graph_schema response) = true ->
  grows g
        (fst (ingest_evidence regex_match out file_path text_data response g)).
Proof.
  intros Htame.
  apply (ingest_stagewise regex_match out (grows g)); [exact Htame| | | |].
  - unfold grows. simpl. repeat split; try apply incl_refl; auto.
    intros n c Hn. rewrite nth_error_app1; [exact Hn|].
    apply nth_error_Some. congruence.
  - intros ns g0 Ht H. eapply grows_trans; [exact H|].
    apply nodes_loop_grows. exact Ht.
  - intros rs g0 Ht H. eapply grows_trans; [exact H|].
    apply rels_loop_grows. exact Ht.
  - intros ns g0 Ht H. eapply grows_trans; [exact H|].
    apply mentions_loop_grows. exact Ht.
Qed.

(** *** Well-formed stores *)

Lemma nodes_loop_well_formed ns g :
  forallb tame_node ns = true ->
  well_formed g -> well_formed (fst (for_each (node_step out) ns g)).
Proof.
  intros Htame [Hd Hm].
  destruct (nodes_loop_spec out ns Htame) as [P [r [_ H]]]. rewrite H. simpl.
  split; simpl.
  - intros e Hin. destruct (Hd e Hin) as [Ha Hb].
    split; apply has_entity_merge_all_mono; assumption.
  - intros m Hin. destruct (Hm m Hin) as [Ha Hb].
    split; [exact Ha|]. apply has_entity_merge_all_mono. exact Hb.
Qed.

Lemma rels_loop_well_formed rs g :
  forallb tame_rel rs = true ->
  well_formed g -> well_formed (fst (for_each (rel_step out) rs g)).
Proof.
  intros Htame [Hd Hm].
  destruct (rels_loop_spec out rs Htame) as [R [r H]]. rewrite H. simpl.
  split; simpl; [|exact Hm].
  intros e Hin. apply merge_edges_origin in Hin.
  destruct Hin as [Hin|Hin]; [apply Hd; exact Hin|exact Hin].
Qed.

Lemma mentions_loop_well_formed text ns g :
  forallb tame_node ns = true ->
  well_formed g ->
  well_formed (fst (for_each (mention_step regex_match out text) ns g)).
Proof.
  intros Htame [Hd Hm].
  destruct (for_each (mention_step regex_match out text) ns g)
    as [g' r] eqn:H.
  apply (mentions_loop_effect _ _ _ _ Htame) in H.
  destruct H as (He & Hed & Hc & _ & Ho).
  split; simpl; rewrite He.
  - rewrite Hed. exact Hd.
  - rewrite Hc. intros m Hin. apply Ho in Hin.
    destruct Hin as [Hin|[Hent [c [Hnth _]]]]; [apply Hm; exact Hin|].
    split; [|exact Hent]. apply nth_error_Some. congruence.
Qed.

Lemma ingest_well_formed file_path text_data response g :
  tame (extract_graph_schema response) = true ->
  well_formed g ->
  well_formed
    (fst (ingest_evidence regex_match out file_path text_data response g)).
Proof.
  intros Htame [Hd Hm].
  apply (ingest_stagewise regex_match out well_formed); [exact Htame| | | |].
  - split; simpl; [exact Hd|]. intros m Hin. destruct (Hm m Hin) as [Ha Hb].
    split; [|exact Hb]. rewrite length_app. simpl. lia.
  - intros ns g0 Ht. apply nodes_loop_well_formed. exact Ht.
  - intros rs g0 Ht. apply rels_loop_well_formed. exact Ht.
  - intros ns g0 Ht. apply mentions_loop_well_formed. exact Ht.
Qed.

End Growth.

Lemma empty_store_well_formed : well_formed empty_store.
Proof. split; intros x []. Qed.

(** X1.  An ingestion whose extraction, if there is one, is tame never
    deletes: whether the file was read or not, whether the chunk was
    stored or not, whether the extraction request was answered or not,
    and whether or not the ingestion raised, every entity id, every edge,
    every MENTIONS link and every chunk of the store is still there
    afterwards, the chunks at their positions. *)
Theorem ingest_never_deletes
  (regex_match : string -> string -> option bool) (out : Outside)
  (file_path : string) (read : result string) (accepted : bool)
  (answer : result loads_result) (g : Store) :
  tame_answer answer = true ->
  grows g (fst (ingest_steps regex_match out file_path read accepted
                             answer g)).
Proof.
  intros Htame.
  apply (ingest_steps_keeps (grows g)); [exact Htame|apply grows_refl| |].
  - intros text_data. apply new_chunk_grows.
  - intros text_data response Hr. apply ingest_grows. exact Hr.
Qed.

Lemma ingest_never_deletes_witness :
  grows empty_store after_case
  /\ grows after_case
           (fst (ingest_steps literal_match refusing "data/a.txt"
                              (inr "Aris left early.") true
                              (inl ServiceError) after_case)).
Proof.
  split.
  - exact (ingest_never_deletes literal_match refusing "data/case.txt"
             (inr sentence) true (inr (Loaded case_fragment)) empty_store
             eq_refl).
  - exact (ingest_never_deletes literal_match refusing "data/a.txt"
             (inr "Aris left early.") true (inl ServiceError) after_case
             eq_refl).
Defined.

(** X2.  When the file is read and the chunk stored, the index after
    the ingestion is the index before with the chunk of the document
    appended, whether the extraction request fails or gives a tame
    extraction, and also when the ingestion raises later: the text is
    stored before the extraction is asked for.  When the file is not read
    or the chunk not stored, the ingestion raises and the store is as it
    was. *)
Theorem chunk_stored_whatever_the_answer
  (regex_match : string -> string -> option bool) (out : Outside)
  (file_path text_data : string) (answer : result loads_result) (g : Store) :
  tame_answer answer = true ->
  chunks (fst (ingest_steps regex_match out file_path (inr text_data) true
                            answer g))
  = chunks g ++ [mkChunk text_data file_path]
  /\ ingest_steps regex_match out file_path (inr text_data) false answer g
     = (g, inl ServiceError)
  /\ forall e accepted,
       ingest_steps regex_match out file_path (inl e) accepted answer g
       = (g, inl e).
Proof.
  intros Htame. split; [|split; [reflexivity|intros e accepted; reflexivity]].
  rewrite ingest_steps_cases. destruct answer as [e|response]; [reflexivity|].
  destruct (ingest_graph_effect regex_match out file_path text_data response
                                Htame)
    as [P [R [_ H]]].
  apply (H g).
Qed.

Lemma chunk_stored_whatever_the_answer_witness :
  chunks (fst (ingest_steps literal_match refusing "data/b.txt"
                            (inr "Marcus met Aris.") true
                            (inr (Loaded headless_fragment)) after_first))
  = chunks after_first ++ [mkChunk "Marcus met Aris." "data/b.txt"]
  /\ chunks (fst (ingest_steps literal_match refusing "data/b.txt"
                               (inr "Marcus met Aris.") true
                               (inl ServiceError) after_first))
     = chunks after_first ++ [mkChunk "Marcus met Aris." "data/b.txt"].
Proof.
  split.
  - exact (proj1 (chunk_stored_whatever_the_answer literal_match refusing
                    "data/b.txt" "Marcus met Aris."
                    (inr (Loaded headless_fragment)) after_first eq_refl)).
  - exact (proj1 (chunk_stored_whatever_the_answer literal_match refusing
                    "data/b.txt" "Marcus met Aris." (inl ServiceError)
                    after_first eq_refl)).
Defined.

(** X3.  An ingestion whose extraction, if there is one, is tame keeps
    the store well formed, also when it raises part of the way: every
    edge joins two entities of the store, and every MENTIONS link goes
    from a chunk of the index to an entity of the store. *)
Theorem ingest_keeps_well_formed
  (regex_match : string -> string -> option bool) (out : Outside)
  (file_path : string) (read : result string) (accepted : bool)
  (answer : result loads_result) (g : Store) :
  tame_answer answer = true ->
  well_formed g ->
  well_formed
    (fst (ingest_steps regex_match out file_path read accepted answer g)).
Proof.
  intros Htame Hg.
  apply (ingest_steps_keeps well_formed); [exact Htame|exact Hg| |].
  - intros text_data. apply new_chunk_well_formed. exact Hg.
  - intros text_data response Hr. apply ingest_well_formed; assumption.
Qed.

Lemma ingest_keeps_well_formed_witness : well_formed after_case.
Proof.
  exact (ingest_keeps_well_formed literal_match refusing "data/case.txt"
           (inr sentence) true (inr (Loaded case_fragment)) empty_store
           eq_refl empty_store_well_formed).
Defined.

(** ** The node list *)

Lemma nodes_of_tame P : forallb tame_node (nodes_of P) = true.
Proof.
  induction P as [|[i t] P IH]; [reflexivity|].
  change (nodes_of ((i, t) :: P)) with (node_obj i t :: nodes_of P).
  cbn [forallb]. rewrite IH. reflexivity.
Qed.

Lemma nodes_of_loop out P g :
  for_each (node_step out) (nodes_of P) g
  = (mkStore (merge_all P (entities g)) (edges g) (chunks g) (mentions g),
     inr tt).
Proof.
  revert g. induction P as [|[i t] P IH]; intros g.
  - destruct g; reflexivity.
  - change (nodes_of ((i, t) :: P)) with (node_obj i t :: nodes_of P).
    cbn [for_each]. unfold bind at 1.
    change (node_step out (node_obj i t) g)
      with (mkStore (merge_entity i t (entities g)) (edges g) (chunks g)
                    (mentions g), @inr exn unit tt).
    cbv beta iota. rewrite IH. reflexivity.
Qed.

Lemma ingest_entities_of_nodes regex_match out file_path text_data P rels g :
  forallb tame_rel rels = true ->
  entities (fst (ingest_evidence regex_match out file_path text_data
                                 (Loaded (fragment (nodes_of P) rels)) g))
  = merge_all P (entities g).
Proof.
  intros Hrels.
  rewrite ingest_evidence_stages. cbv zeta.
  change (dict_get (extract_graph_schema (Loaded (fragment (nodes_of P) rels)))
                   "nodes" (JArr []))
    with (@inr exn json (JArr (nodes_of P))).
  change (dict_get (extract_graph_schema (Loaded (fragment (nodes_of P) rels)))
                   "relationships" (JArr []))
    with (@inr exn json (JArr rels)).
  cbv beta iota delta [iterate]. rewrite nodes_of_loop.
  destruct (rels_loop_spec out rels Hrels) as [R [r ->]].
  destruct r as [e|[]]; [reflexivity|].
  match goal with
  | |- context [for_each (mention_step regex_match out text_data) ?ns ?g0] =>
      destruct (mentions_loop_frame regex_match out text_data ns g0
                                    (nodes_of_tame P))
        as [ms [r ->]]
  end.
  destruct r as [e|[]]; reflexivity.
Qed.

Lemma merge_all_untouched P ents e :
  In e (merge_all P ents) -> last_type P (ent_id e) = None -> In e ents.
Proof.
  revert e. induction P as [|[j u] P IH] using rev_ind; intros e Hin Hlast.
  - exact Hin.
  - rewrite merge_all_snoc in Hin. rewrite last_type_snoc in Hlast.
    destruct (String.eqb (ent_id e) j) eqn:E; [discriminate Hlast|].
    simpl in Hin. unfold merge_entity in Hin.
    destruct (has_entity j (merge_all P ents)).
    + apply in_map_iff in Hin. destruct Hin as [e0 [He0 Hin]].
      unfold set_type in He0.
      destruct (String.eqb (ent_id e0) j) eqn:E0.
      * subst e. simpl in E. congruence.
      * subst e0. apply IH; assumption.
    + apply in_app_or in Hin. destruct Hin as [Hin|[<-|[]]].
      * apply IH; assumption.
      * simpl in E. rewrite String.eqb_refl in E. discriminate E.
Qed.

Lemma last_type_some_in P i t :
  last_type P i = Some t -> In i (map fst P).
Proof.
  induction P as [|[j u] P IH]; simpl; intros H.
  - discriminate H.
  - destruct (last_type P i) as [t'|].
    + right. apply IH. exact H.
    + destruct (String.eqb_spec i j) as [->|_]; [left; reflexivity|].
      discriminate H.
Qed.

Lemma has_entity_in i ents :
  has_entity i ents = true -> exists e, In e ents /\ ent_id e = i.
Proof.
  unfold has_entity. intros H. apply existsb_exists in H.
  destruct H as [e [Hin He]]. apply String.eqb_eq in He. eauto.
Qed.

Lemma merge_all_keeps_unnamed P ents e :
  In e ents -> last_type P (ent_id e) = None -> In e (merge_all P ents).
Proof.
  revert ents. induction P as [|[j u] P IH]; intros ents Hin Hlast.
  - exact Hin.
  - simpl in Hlast. destruct (last_type P (ent_id e)) eqn:Hl;
      [discriminate Hlast|].
    destruct (String.eqb (ent_id e) j) eqn:E; [discriminate Hlast|].
    change (merge_all ((j, u) :: P) ents)
      with (merge_all P (merge_entity j u ents)).
    apply IH; [|reflexivity]. unfold merge_entity.
    destruct (has_entity j ents).
    + apply in_map_iff. exists e. split; [|exact Hin].
      unfold set_type. rewrite E. reflexivity.
    + apply in_or_app. left. exact Hin.
Qed.

(** X4.  Last write wins.  For a node list of objects with text ids and
    types, and relationships that are tame, an id that the list names
    ends with the type of its last occurrence in the list, whatever type
    the store or an earlier occurrence gave it, and an entity whose id the
    list does not name is left as it was. *)
Theorem node_types_last_write_wins
  (regex_match : string -> string -> option bool) (out : Outside)
  (file_path text_data : string) (P : list (string * string))
  (rels : list json) (g : Store) :
  forallb tame_rel rels = true ->
  let g' := fst (ingest_evidence regex_match out file_path text_data
                                 (Loaded (fragment (nodes_of P) rels)) g) in
  (forall i t, last_type P i = Some t ->
               In (mkEntity i t) (entities g')
               /\ forall e, In e (entities g') -> ent_id e = i ->
                            ent_type e = t)
  /\ (forall e, last_type P (ent_id e) = None ->
                (In e (entities g') <-> In e (entities g))).
Proof.
  intros Hrels g'. unfold g'.
  rewrite (ingest_entities_of_nodes _ _ _ _ _ _ _ Hrels). split.
  - intros i t Hlast.
    assert (forall e, In e (merge_all P (entities g)) -> ent_id e = i ->
                      ent_type e = t) as Hall.
    { intros e Hin <-. eapply merge_all_last_type; eassumption. }
    split; [|exact Hall].
    assert (has_entity i (merge_all P (entities g)) = true) as Hhas.
    { rewrite has_entity_merge_all. apply orb_true_iff. right.
      apply last_type_some_in in Hlast. apply in_map_iff in Hlast.
      destruct Hlast as [p [Hp Hin]]. apply existsb_exists. exists p.
      split; [exact Hin|]. rewrite Hp. apply String.eqb_refl. }
    apply has_entity_in in Hhas. destruct Hhas as [e [Hin He]].
    rewrite <- (Hall e Hin He), <- He. destruct e; exact Hin.
  - intros e Hnone. split.
    + intros Hin. apply (merge_all_untouched P); assumption.
    + intros Hin. apply merge_all_keeps_unnamed; assumption.
Qed.

Lemma node_types_last_write_wins_witness :
  let g' := fst (ingest_evidence literal_match refusing "data/b.txt" "Aris was found."
                   (Loaded (fragment (nodes_of [("Aris", "Suspect");
                                                ("Aris", "Victim")]) []))
                   after_first) in
  In (mkEntity "Aris" "Victim") (entities g')
  /\ (In (mkEntity "Marcus" "Person") (entities g')
      <-> In (mkEntity "Marcus" "Person") (entities after_first)).
Proof.
  intros g'.
  pose proof (node_types_last_write_wins literal_match refusing "data/b.txt"
                "Aris was found." [("Aris", "Suspect"); ("Aris", "Victim")]
                [] after_first eq_refl) as [Hnamed Hother].
  split.
  - apply (Hnamed "Aris" "Victim"). reflexivity.
  - apply (Hother (mkEntity "Marcus" "Person")). reflexivity.
Defined.

(** ** Answers of the wrong type *)

(** X5.  An answer that parses but is not an object makes the ingestion
    raise [AttributeError] at [graph_data.get]; a [nodes] value that is
    null, a boolean or a number, and a first node that is not an object,
    make it raise [TypeError].  In each case the chunk is in the index and
    the rest of the store is as it was. *)
Theorem ill_typed_answer_raises
  (regex_match : string -> string -> option bool) (out : Outside)
  (file_path text_data : string) (v : json) (g : Store) :
  let g0 := mkStore (entities g) (edges g)
                    (chunks g ++ [mkChunk text_data file_path]) (mentions g) in
  let outcome := ingest_evidence regex_match out file_path text_data (Loaded v) g in
  ((forall fields, v <> JObj fields) -> outcome = (g0, inl AttributeError))
  /\ (forall fields nodes,
        v = JObj fields -> assoc "nodes" fields = Some nodes ->
        nodes = JNull \/ (exists b, nodes = JBool b)
        \/ (exists n, nodes = JNum n) ->
        outcome = (g0, inl TypeError))
  /\ (forall fields node rest,
        v = JObj fields ->
        assoc "nodes" fields = Some (JArr (node :: rest)) ->
        (forall f, node <> JObj f) ->
        outcome = (g0, inl TypeError)).
Proof.
  intros g0 outcome. unfold outcome. rewrite ingest_evidence_stages.
  cbv zeta. split; [|split].
  - intros Hv. destruct v as [|?|?|?|?|fields]; try reflexivity.
    destruct (Hv fields eq_refl).
  - intros fields nodes -> Hn Hkind. simpl. rewrite Hn.
    destruct Hkind as [->|[[b ->]|[n ->]]]; reflexivity.
  - intros fields node rest -> Hn Hnode. simpl. rewrite Hn. simpl.
    unfold bind at 1. unfold node_step at 1.
    destruct node as [|?|?|?|?|f]; try reflexivity.
    destruct (Hnode f eq_refl).
Qed.

Lemma ill_typed_answer_raises_witness :
  snd (ingest_evidence literal_match refusing "data/a.txt" "Aris left early."
                       (Loaded (JArr [])) empty_store)
  = inl AttributeError
  /\ snd (ingest_evidence literal_match refusing "data/a.txt" "Aris left early."
                          (Loaded (JObj [("nodes", JNull)])) empty_store)
     = inl TypeError
  /\ snd (ingest_evidence literal_match refusing "data/a.txt" "Aris left early."
                          (Loaded (JObj [("nodes", JArr [JStr "Aris"])]))
                          empty_store)
     = inl TypeError.
Proof.
  split; [|split].
  - rewrite (proj1 (ill_typed_answer_raises literal_match refusing
                      "data/a.txt" "Aris left early." (JArr []) empty_store)).
    + reflexivity.
    + intros fields H. discriminate H.
  - rewrite (proj1 (proj2 (ill_typed_answer_raises literal_match refusing "data/a.txt"
                             "Aris left early." (JObj [("nodes", JNull)])
                             empty_store))
               [("nodes", JNull)] JNull eq_refl eq_refl (or_introl eq_refl)).
    reflexivity.
  - rewrite (proj2 (proj2 (ill_typed_answer_raises literal_match refusing "data/a.txt"
                             "Aris left early."
                             (JObj [("nodes", JArr [JStr "Aris"])])
                             empty_store))
               [("nodes", JArr [JStr "Aris"])] (JStr "Aris") [] eq_refl eq_refl).
    + reflexivity.
    + intros f H. discriminate H.
Defined.

(** ** The MENTIONS links of the new chunk *)

Lemma prefixb_take n s : prefixb (take n s) s = true.
Proof.
  revert s. induction n as [|n IH]; intros s; destruct s as [|c s]; simpl;
    try reflexivity.
  rewrite Ascii.eqb_refl, IH. reflexivity.
Qed.

Lemma contains_take n s : contains s (take n s) = true.
Proof.
  destruct s as [|c s]; simpl.
  - rewrite prefixb_take. reflexivity.
  - rewrite (prefixb_take n (String c s)). reflexivity.
Qed.

Lemma node_obj_in P i : In i (map fst P) -> exists t, In (node_obj i t) (nodes_of P).
Proof.
  intros H. apply in_map_iff in H. destruct H as [[j t] [Hj Hin]].
  simpl in Hj. subst j. exists t. unfold nodes_of.
  apply in_map_iff. exists (i, t). split; [reflexivity|exact Hin].
Qed.

(** X6.  After an ingestion that returns, on a well-formed store and for
    a node list of objects with text ids and types and relationships that
    are tame, the new chunk is linked by MENTIONS to a named entity
    exactly when the backend finds that the pattern [(?i).*id.*] matches
    the whole text of the document. *)
Theorem new_chunk_linked_iff_pattern_matches
  (regex_match : string -> string -> option bool) (out : Outside)
  (file_path text_data : string) (P : list (string * string))
  (rels : list json) (g g' : Store) (handle : string) :
  forallb tame_rel rels = true ->
  well_formed g ->
  ingest_evidence regex_match out file_path text_data
                  (Loaded (fragment (nodes_of P) rels)) g
  = (g', inr handle) ->
  forall id, In id (map fst P) ->
    (In (length (chunks g), id) (mentions g')
     <-> regex_match (mention_pattern id) text_data = Some true).
Proof.
  intros Hrels [_ Hwf] Hrun id Hid.
  rewrite ingest_evidence_stages in Hrun. cbv zeta in Hrun.
  change (dict_get (extract_graph_schema (Loaded (fragment (nodes_of P) rels)))
                   "nodes" (JArr []))
    with (@inr exn json (JArr (nodes_of P))) in Hrun.
  change (dict_get (extract_graph_schema (Loaded (fragment (nodes_of P) rels)))
                   "relationships" (JArr []))
    with (@inr exn json (JArr rels)) in Hrun.
  cbv beta iota delta [iterate] in Hrun. rewrite nodes_of_loop in Hrun.
  destruct (rels_loop_spec out rels Hrels) as [R [r Hrel]]. rewrite Hrel in Hrun.
  destruct r as [e|[]]; [discriminate Hrun|].
  cbn [entities edges chunks mentions] in Hrun.
  set (g2 := mkStore (merge_all P (entities g))
                     (merge_edges (merge_all P (entities g)) R (edges g))
                     (chunks g ++ [mkChunk text_data file_path])
                     (mentions g)) in Hrun.
  destruct (for_each (mention_step regex_match out text_data) (nodes_of P) g2)
    as [g3 [e|[]]] eqn:Hloop; [discriminate Hrun|].
  inversion Hrun; subst g3. clear Hrun.
  assert (nth_error (chunks g2) (length (chunks g))
          = Some (mkChunk text_data file_path)) as Hnew.
  { unfold g2. simpl. rewrite nth_error_app2 by lia.
    rewrite Nat.sub_diag. reflexivity. }
  split.
  - intros Hin.
    destruct (mentions_loop_effect _ _ _ _ (nodes_of_tame P) _ _ _ Hloop)
      as (_ & _ & _ & _ & Ho).
    destruct (Ho _ Hin) as [Hold|[_ [c [Hc [Hre _]]]]].
    + apply Hwf in Hold. simpl in Hold. lia.
    + cbn [fst snd] in Hc, Hre. rewrite Hnew in Hc. inversion Hc; subst c.
      exact Hre.
  - intros Hre. destruct (node_obj_in P id Hid) as [t Hnode].
    apply (mentions_loop_complete regex_match out text_data (nodes_of P)
             (nodes_of_tame P) g2 g'
             (node_obj id t) id (length (chunks g))
             (mkChunk text_data file_path) Hloop Hnode).
    + reflexivity.
    + unfold g2. simpl. rewrite has_entity_merge_all.
      apply orb_true_iff. right. apply in_map_iff in Hid.
      destruct Hid as [p [Hp Hin]]. apply existsb_exists. exists p.
      split; [exact Hin|]. rewrite Hp. apply String.eqb_refl.
    + exact Hnew.
    + exact Hre.
    + apply contains_take.
Qed.

Lemma new_chunk_linked_iff_pattern_matches_witness :
  In (0, "Aris") (mentions after_case).
Proof.
  apply (proj2 (new_chunk_linked_iff_pattern_matches literal_match
                  refusing "data/case.txt" sentence
                  [("Aris", "Person"); ("Marcus", "Person");
                   ("Helena", "Person"); ("poison", "Object")]
                  [rel_obj "Aris" "RELATED" "Marcus";
                   rel_obj "Marcus" "RELATED" "Helena";
                   rel_obj "Marcus" "POSSESSES" "poison"]
                  empty_store after_case index_name eq_refl
                  empty_store_well_formed eq_refl "Aris"
                  (or_introl eq_refl))).
  reflexivity.
Defined.

(** ** What retrieval returns *)

Lemma concat_map_bound {A B} (f : A -> list B) (n : nat) (l : list A) :
  (forall x, length (f x) <= n) ->
  length (concat (map f l)) <= n * length l.
Proof.
  intros Hf. induction l as [|x l IH]; simpl.
  - lia.
  - rewrite length_app. specialize (Hf x). lia.
Qed.

Lemma chunk_facts_bound g c : length (chunk_facts g c) <= 20.
Proof. unfold chunk_facts. rewrite length_map. apply firstn_le_length. Qed.

(** X7.  One retrieval returns at most 100 graph facts: at most five
    chunks, each chunk of the index, and at most 20 facts for each. *)
Theorem retrieval_returns_at_most_100_facts
  (score : string -> string -> Z) (query : string) (g : Store) :
  exists hits context_text graph_context,
    similarity_search score query 5 g = (g, inr hits)
    /\ investigate_case score query g
       = (g, inr (context_text, graph_context))
    /\ length hits <= 5
    /\ incl hits (chunks g)
    /\ length graph_context <= 100.
Proof.
  exists (retrieved score query g). eexists. eexists.
  split; [reflexivity|]. split; [apply investigate_case_result|].
  assert (length (retrieved score query g) <= 5) as Hfive
      by apply firstn_le_length.
  split; [exact Hfive|]. split.
  - intros c Hin. apply in_firstn in Hin. apply rank_in in Hin. exact Hin.
  - pose proof (concat_map_bound (chunk_facts g) 20 (retrieved score query g)
                  (chunk_facts_bound g)) as H.
    lia.
Qed.

Lemma hops_without_related node es :
  (forall e, In e es -> edge_label e <> "RELATED") -> hops node es = [].
Proof.
  intros Hno. unfold hops, indexed.
  assert (forall l : list (nat * Edge),
             (forall je, In je l -> In (snd je) es) ->
             flat_map (fun je : nat * Edge =>
                         if String.eqb (edge_label (snd je)) "RELATED"
                         then match other_end node (snd je) with
                              | Some x => [(fst je, snd je, x)]
                              | None => []
                              end
                         else []) l = []) as Hall.
  { induction l as [|je l IH]; intros Hl; simpl; [reflexivity|].
    destruct (String.eqb_spec (edge_label (snd je)) "RELATED") as [Heq|_].
    - destruct (Hno (snd je) (Hl je (or_introl eq_refl)) Heq).
    - apply IH. intros je' Hin. apply Hl. right. exact Hin. }
  apply Hall. intros [j e] Hin. simpl. apply (in_combine_r _ _ _ _ Hin).
Qed.

Lemma flat_map_all_nil {A B} (f : A -> list B) (l : list A) :
  (forall x, f x = []) -> flat_map f l = [].
Proof.
  intros Hf. induction l as [|x l IH]; simpl; [reflexivity|].
  rewrite Hf, IH. reflexivity.
Qed.

Lemma two_hop_rows_without_related g text :
  (forall e, In e (edges g) -> edge_label e <> "RELATED") ->
  two_hop_rows g text = [].
Proof.
  intros Hno. unfold two_hop_rows. apply flat_map_all_nil. intros ic.
  destruct (String.eqb (chunk_text (snd ic)) text); [|reflexivity].
  apply flat_map_all_nil. intros m.
  destruct (Nat.eqb (fst m) (fst ic)); [|reflexivity].
  unfold paths_from. rewrite (hops_without_related _ _ Hno). reflexivity.
Qed.

(** X8.  The traversal follows edges of type [RELATED] and no other: on
    a store without such an edge, for instance one whose edges carry the
    types that the extraction prompt proposes ([RELATED_TO],
    [HAS_MOTIVE], [POSSESSES] and so on), retrieval returns no graph
    fact. *)
Theorem no_related_edge_no_fact
  (score : string -> string -> Z) (query : string) (g : Store) :
  (forall e, In e (edges g) -> edge_label e <> "RELATED") ->
  exists context_text,
    investigate_case score query g = (g, inr (context_text, [])).
Proof.
  intros Hno. eexists. rewrite investigate_case_result.
  assert (concat (map (chunk_facts g) (retrieved score query g)) = [])
    as ->; [|reflexivity].
  induction (retrieved score query g) as [|c l IH]; simpl; [reflexivity|].
  rewrite IH. unfold chunk_facts.
  rewrite (two_hop_rows_without_related _ _ Hno). reflexivity.
Qed.

Lemma no_related_edge_no_fact_witness :
  let g := fst (ingest_evidence literal_match refusing "data/case.txt"
                                  sentence
                  (Loaded (fragment
                             [node_obj "Aris" "Person";
                              node_obj "Marcus" "Person";
                              node_obj "Helena" "Person"]
                             [rel_obj "Aris" "RELATED_TO" "Marcus";
                              rel_obj "Marcus" "HAS_MOTIVE" "Helena"]))
                  empty_store) in
  length (edges g) = 2
  /\ exists context_text,
      investigate_case by_position case_query g = (g, inr (context_text, [])).
Proof.
  intros g. split; [reflexivity|].
  apply no_related_edge_no_fact.
  intros e Hin. vm_compute in Hin.
  destruct Hin as [<-|[<-|[]]]; intros H; discriminate H.
Defined.

(** X9.  The ingestion of a tame extraction creates relationships
    without properties, and the traversal reads the property [type] of a
    relationship.  So when the relationships of the store carry no
    properties, they carry none after such an ingestion either, and every
    fact that a retrieval then returns is written with [None] in both
    places where the relationship is to be named. *)
Theorem facts_name_no_relationship
  (regex_match : string -> string -> option bool) (out : Outside)
  (score : string -> string -> Z)
  (file_path text_data query : string) (response : loads_result) (g : Store) :
  tame (extract_graph_schema response) = true ->
  (forall e, In e (edges g) -> edge_props e = []) ->
  let g' :=
    fst (ingest_evidence regex_match out file_path text_data response g) in
  (forall e, In e (edges g') -> edge_props e = [])
  /\ forall context_text graph_context fact,
       investigate_case score query g'
       = (g', inr (context_text, graph_context)) ->
       In fact graph_context ->
       exists s m e,
         fact = (s ++ " --[None]--> " ++ m ++ " --[None]--> " ++ e)%string.
Proof.
  intros Htame Hbare g'.
  assert (forall e, In e (edges g') -> edge_props e = []) as Hbare'
      by (apply ingest_keeps_edges_bare; assumption).
  split; [exact Hbare'|].
  intros context_text graph_context fact Hrun Hin.
  rewrite investigate_case_result in Hrun. inversion Hrun; subst.
  apply in_concat in Hin. destruct Hin as [facts [Hfacts Hin]].
  apply in_map_iff in Hfacts. destruct Hfacts as [c [<- _]].
  destruct (bare_edges_give_none g' c fact Hbare' Hin) as [s [m [e ->]]].
  exists s, m, e. reflexivity.
Qed.

Lemma facts_name_no_relationship_witness :
  exists s m e,
    "Helena --[None]--> Marcus --[None]--> Aris"
    = (s ++ " --[None]--> " ++ m ++ " --[None]--> " ++ e)%string.
Proof.
  apply (proj2 (facts_name_no_relationship literal_match refusing by_position
                  "data/case.txt" sentence case_query (Loaded case_fragment)
                  empty_store eq_refl
                  (fun e (H : In e []) => match H with end))
           (labelled (mkChunk sentence "data/case.txt"))
           ["Aris --[None]--> Marcus --[None]--> Helena";
            "Helena --[None]--> Marcus --[None]--> Aris"]).
  - reflexivity.
  - right. left. reflexivity.
Defined.

(** ** Texts inside texts *)

Lemma contains_unfold s p :
  contains s p
  = prefixb p s || match s with
                   | EmptyString => false
                   | String _ rest => contains rest p
                   end.
Proof. destruct s; reflexivity. Qed.

Lemma prefixb_app p s t : prefixb p s = true -> prefixb p (s ++ t) = true.
Proof.
  revert s. induction p as [|a p IH]; intros s H; [reflexivity|].
  destruct s as [|b s]; simpl in *; [discriminate H|].
  apply andb_true_iff in H. destruct H as [-> H]. simpl. apply IH. exact H.
Qed.

Lemma prefixb_refl_app p t : prefixb p (p ++ t) = true.
Proof.
  induction p as [|a p IH]; simpl; [reflexivity|].
  rewrite Ascii.eqb_refl. exact IH.
Qed.

Lemma contains_app_l s t p :
  contains s p = true -> contains (s ++ t) p = true.
Proof.
  induction s as [|c s IH]; intros H.
  - rewrite contains_unfold in H. rewrite orb_false_r in H.
    rewrite contains_unfold. apply orb_true_iff. left.
    apply (prefixb_app p EmptyString t H).
  - rewrite contains_unfold in H. apply orb_true_iff in H.
    change ((String c s ++ t)%string) with (String c (s ++ t)).
    rewrite contains_unfold. apply orb_true_iff.
    destruct H as [H|H].
    + left. apply (prefixb_app p (String c s) t H).
    + right. apply IH. exact H.
Qed.

Lemma contains_app_r s t p :
  contains t p = true -> contains (s ++ t) p = true.
Proof.
  intros H. induction s as [|c s IH]; [exact H|].
  change ((String c s ++ t)%string) with (String c (s ++ t)).
  rewrite contains_unfold, IH. apply orb_true_r.
Qed.

Lemma contains_head p t : contains (p ++ t) p = true.
Proof.
  rewrite contains_unfold, prefixb_refl_app. reflexivity.
Qed.

Lemma contains_refl p : contains p p = true.
Proof.
  rewrite contains_unfold.
  assert (prefixb p p = true) as ->; [|reflexivity].
  induction p as [|a p IH]; simpl; [reflexivity|].
  rewrite Ascii.eqb_refl. exact IH.
Qed.

(** Finds [p] as one of the pieces of a text written with [++]. *)
Ltac find_piece :=
  first [ apply contains_refl
        | apply contains_head
        | apply contains_app_r; find_piece ].

(** Finds a piece of such a text inside which [tac] goes on. *)
Ltac find_inside tac :=
  first [ apply contains_app_l; tac
        | apply contains_app_r; find_inside tac ].

Lemma fold_labelled_contains hits acc c p :
  In c hits -> contains (labelled c) p = true ->
  contains (fold_left (fun acc c => (acc ++ labelled c)%string) hits acc) p
  = true.
Proof.
  revert acc. induction hits as [|d hits IH]; intros acc Hin Hp.
  - destruct Hin.
  - simpl. destruct Hin as [->|Hin].
    + clear IH. revert acc.
      assert (forall l acc',
                 contains acc' p = true ->
                 contains (fold_left (fun acc c => (acc ++ labelled c)%string)
                                     l acc') p = true) as Hkeep.
      { induction l as [|x l IHl]; intros acc' H; [exact H|].
        simpl. apply IHl. apply contains_app_l. exact H. }
      intros acc. apply Hkeep. apply contains_app_r. exact Hp.
    + apply IH; assumption.
Qed.

(** X10.  The context text that retrieval returns holds, for every
    retrieved chunk, the text of the chunk and the path of its source. *)
Theorem context_holds_every_retrieved_chunk
  (score : string -> string -> Z) (query : string) (g : Store) :
  exists hits context_text graph_context,
    similarity_search score query 5 g = (g, inr hits)
    /\ investigate_case score query g
       = (g, inr (context_text, graph_context))
    /\ forall c, In c hits ->
         contains context_text (chunk_text c) = true
         /\ contains context_text (chunk_source c) = true.
Proof.
  exists (retrieved score query g). eexists. eexists.
  split; [reflexivity|]. split; [apply investigate_case_result|].
  intros c Hin. split.
  - apply (fold_labelled_contains _ _ c); [exact Hin|].
    unfold labelled. find_piece.
  - apply (fold_labelled_contains _ _ c); [exact Hin|].
    unfold labelled. find_piece.
Qed.

Lemma context_holds_every_retrieved_chunk_witness :
  exists context_text graph_context,
    investigate_case by_position case_query after_case
    = (after_case, inr (context_text, graph_context))
    /\ contains context_text sentence = true.
Proof.
  destruct (context_holds_every_retrieved_chunk by_position case_query
              after_case) as [hits [context_text [graph_context [Hs [Hi Hc]]]]].
  exists context_text, graph_context. split; [exact Hi|].
  apply (Hc (mkChunk sentence "data/case.txt")).
  vm_compute in Hs. inversion Hs; subst. left. reflexivity.
Defined.

(** ** What the prompt of the synthesizer holds *)

Lemma join_contains sep l x :
  In x l -> contains (join sep l) x = true.
Proof.
  induction l as [|y l IH]; intros Hin; [destruct Hin|].
  destruct l as [|z l].
  - destruct Hin as [->|[]]. apply contains_refl.
  - change (join sep (y :: z :: l))
      with ((y ++ sep ++ join sep (z :: l))%string).
    destruct Hin as [->|Hin].
    + apply contains_head.
    + apply contains_app_r, contains_app_r, IH. exact Hin.
Qed.

(** X11.  Nothing is left out of the prompt: the text sent to the
    generation backend holds the question, the whole context text, and
    every graph fact of the list. *)
Theorem prompt_holds_question_context_and_facts
  (set_order : list string -> list string)
  (generate_content : string -> string)
  (Hsame : forall l x, In x (set_order l) <-> In x l)
  (query context_text : string) (graph_context : list string) :
  exists text,
    solve_crime set_order generate_content query context_text graph_context
    = generate_content text
    /\ contains text query = true
    /\ contains text context_text = true
    /\ forall fact, In fact graph_context -> contains text fact = true.
Proof.
  eexists. split; [reflexivity|]. unfold prompt. split; [|split].
  - find_piece.
  - find_piece.
  - intros fact Hin.
    find_inside ltac:(solve [apply join_contains; apply Hsame; exact Hin]).
Qed.

Lemma prompt_holds_question_context_and_facts_witness :
  exists text,
    solve_crime (nodup string_dec) (fun p => p) case_query sentence
                ["Aris --[None]--> Marcus --[None]--> Helena"]
    = text
    /\ contains text "Aris --[None]--> Marcus --[None]--> Helena" = true.
Proof.
  destruct (prompt_holds_question_context_and_facts (nodup string_dec)
              (fun p => p) (fun l x => nodup_In string_dec l x)
              case_query sentence
              ["Aris --[None]--> Marcus --[None]--> Helena"])
    as [text [Htext [_ [_ Hfacts]]]].
  exists text. split; [exact Htext|].
  apply Hfacts. left. reflexivity.
Defined.

(** ** The normalization of relationship types *)

Lemma sanitize_map s : sanitize s = map_string sanitize_char s.
Proof.
  unfold sanitize, replace, upper.
  induction s as [|c s IH]; simpl; [reflexivity|].
  rewrite IH. reflexivity.
Qed.

Lemma sanitize_char_idempotent c :
  sanitize_char (sanitize_char c) = sanitize_char c.
Proof. destruct c as [[] [] [] [] [] [] [] []]; vm_compute; reflexivity. Qed.

Lemma sanitize_char_clean c :
  negb (is_lower (sanitize_char c)
        || Ascii.eqb (sanitize_char c) " "%char
        || Ascii.eqb (sanitize_char c) "-"%char) = true.
Proof. destruct c as [[] [] [] [] [] [] [] []]; vm_compute; reflexivity. Qed.

Lemma replace_clean s :
  forall_chars (fun c => negb (Ascii.eqb c " "%char || Ascii.eqb c "-"%char))
               (replace "-"%char "_"%char (replace " "%char "_"%char s))
  = true.
Proof.
  unfold replace. induction s as [|c s IH]; simpl; [reflexivity|].
  rewrite IH, andb_true_r.
  destruct c as [[] [] [] [] [] [] [] []]; vm_compute; reflexivity.
Qed.

(** X12.  The text that line 123 makes of a type holds no space and no
    hyphen, whatever the type.  For a type of ASCII characters it is the
    normalization [sanitize]: it has the length of the type and holds no
    lower-case ASCII letter either. *)
Theorem sanitize_leaves_no_space_hyphen_or_lower_case
  (out : Outside) (s : string) :
  forall_chars (fun c => negb (Ascii.eqb c " "%char || Ascii.eqb c "-"%char))
               (replace "-"%char "_"%char
                        (replace " "%char "_"%char (py_upper out s)))
  = true
  /\ (is_ascii s = true ->
      replace "-"%char "_"%char (replace " "%char "_"%char (py_upper out s))
      = sanitize s
      /\ String.length (sanitize s) = String.length s
      /\ forall_chars
           (fun c => negb (is_lower c || Ascii.eqb c " "%char
                           || Ascii.eqb c "-"%char))
           (sanitize s) = true).
Proof.
  split; [apply replace_clean|].
  intros Hascii. split; [unfold py_upper; rewrite Hascii; reflexivity|].
  clear Hascii.
  rewrite sanitize_map. induction s as [|c s [IHl IHc]]; simpl.
  - split; reflexivity.
  - split; [rewrite IHl; reflexivity|].
    rewrite IHc, andb_true_r. apply sanitize_char_clean.
Qed.

Lemma sanitize_leaves_no_space_hyphen_or_lower_case_witness :
  replace "-"%char "_"%char
          (replace " "%char "_"%char (py_upper refusing "has motive"))
  = sanitize "has motive"
  /\ String.length (sanitize "has motive") = String.length "has motive".
Proof.
  destruct (proj2 (sanitize_leaves_no_space_hyphen_or_lower_case
                     refusing "has motive") eq_refl) as [Hs [Hl _]].
  split; [exact Hs|exact Hl].
Defined.

(** X13.  Normalizing is idempotent: a type that was normalized is left
    as it is by a second normalization, so a type read back from the
    graph and emitted again names the same relationship type. *)
Theorem sanitize_idempotent (s : string) :
  sanitize (sanitize s) = sanitize s.
Proof.
  rewrite !sanitize_map. induction s as [|c s IH]; simpl; [reflexivity|].
  rewrite sanitize_char_idempotent, IH. reflexivity.
Qed.

(** X14.  A type written with ASCII letters, digits, underscores, spaces
    and hyphens is normalized to a text of upper-case letters, digits and
    underscores. *)
Theorem sanitize_of_plain_type_fits_alphabet (s : string) :
  forall_chars plain_char s = true -> fits_alphabet (sanitize s) = true.
Proof. apply sanitize_plain_fits. Qed.

Lemma sanitize_of_plain_type_fits_alphabet_witness :
  fits_alphabet (sanitize "caused-death of") = true.
Proof.
  apply sanitize_of_plain_type_fits_alphabet. reflexivity.
Defined.


(** ** The page *)

Lemma ingest_handle regex_match out file_path text_data response g handle :
  snd (ingest_evidence regex_match out file_path text_data response g)
  = inr handle ->
  handle = index_name.
Proof.
  rewrite ingest_evidence_stages. cbv zeta.
  destruct (dict_get (extract_graph_schema response) "nodes" (JArr []))
    as [e|nodes]; [discriminate|].
  destruct (iterate nodes) as [e|ns]; [discriminate|].
  destruct (for_each (node_step out) ns _) as [g1 [e|[]]]; [discriminate|].
  destruct (dict_get (extract_graph_schema response) "relationships" (JArr []))
    as [e|rels]; [discriminate|].
  destruct (iterate rels) as [e|rs]; [discriminate|].
  destruct (for_each (rel_step out) rs g1) as [g2 [e|[]]]; [discriminate|].
  destruct (for_each (mention_step regex_match out text_data) ns g2)
    as [g3 [e|[]]]; [discriminate|].
  simpl. congruence.
Qed.

Lemma ingest_steps_handle regex_match out file_path read accepted answer g
      handle :
  snd (ingest_steps regex_match out file_path read accepted answer g)
  = inr handle ->
  handle = index_name
  /\ exists text_data response,
       read = inr text_data /\ accepted = true /\ answer = inr response.
Proof.
  rewrite ingest_steps_cases.
  destruct read as [e|text_data]; [discriminate|].
  destruct accepted; [|discriminate].
  destruct answer as [e|response]; [discriminate|].
  intros H. apply ingest_handle in H. split; [exact H|].
  exists text_data, response. repeat split.
Qed.

(** The chunks after one ingestion of a tame file. *)
Lemma ingest_steps_chunks regex_match out f g :
  tame_file f = true ->
  chunks (fst (ingest_steps regex_match out (file_path f) (file_read f)
                            (file_accepted f) (file_answer f) g))
  = chunks g ++ chunk_of f.
Proof.
  intros Htame. rewrite ingest_steps_cases. unfold chunk_of.
  destruct (file_read f) as [e|text_data];
    [simpl; rewrite app_nil_r; reflexivity|].
  destruct (file_accepted f); [|simpl; rewrite app_nil_r; reflexivity].
  unfold tame_file in Htame.
  destruct (file_answer f) as [e|response]; [reflexivity|].
  destruct (ingest_graph_effect regex_match out (file_path f) text_data
                                response Htame)
    as [P [R [_ H]]].
  apply (H g).
Qed.

Section PageProperties.

Variable regex_match : string -> string -> option bool.
Variable out : Outside.
Variable score : string -> string -> Z.
Variable set_order : list string -> list string.
Variable generate_content : string -> string.

Lemma ingest_files_session data_files :
  forall a,
    messages (session (fst (ingest_files regex_match out data_files a)))
    = messages (session a)
    /\ ingested (session (fst (ingest_files regex_match out data_files a)))
       = ingested (session a).
Proof.
  induction data_files as [|f rest IH]; intros a; simpl.
  - split; reflexivity.
  - destruct (ingest_steps regex_match out (file_path f) (file_read f)
                           (file_accepted f) (file_answer f) (graph a))
      as [g [e|h]].
    + split; reflexivity.
    + destruct (IH (mkApp (mkSession (Some h) (ingested (session a))
                                     (messages (session a))) g))
        as [Hm Hi].
      rewrite Hm, Hi. split; reflexivity.
Qed.

(** What the ingestion of every tame file keeps, the loop over tame
    files keeps. *)
Lemma ingest_files_keeps (Q : Store -> Prop) data_files :
  (forall f g,
      tame_file f = true ->
      Q g ->
      Q (fst (ingest_steps regex_match out (file_path f) (file_read f)
                           (file_accepted f) (file_answer f) g))) ->
  forallb tame_file data_files = true ->
  forall a, Q (graph a) ->
            Q (graph (fst (ingest_files regex_match out data_files a))).
Proof.
  intros Hstep.
  induction data_files as [|f rest IH]; intros Htame a Ha; simpl.
  - exact Ha.
  - simpl in Htame. apply andb_true_iff in Htame.
    destruct Htame as [Hf Hrest].
    specialize (Hstep f _ Hf Ha).
    destruct (ingest_steps regex_match out (file_path f) (file_read f)
                           (file_accepted f) (file_answer f) (graph a))
      as [g [e|h]].
    + exact Hstep.
    + apply (IH Hrest). exact Hstep.
Qed.

Lemma ingest_files_chunks data_files :
  forallb tame_file data_files = true ->
  forall a a' r,
    ingest_files regex_match out data_files a = (a', r) ->
    (r = inr tt ->
     chunks (graph a') = chunks (graph a) ++ flat_map chunk_of data_files)
    /\ (forall e, r = inl e ->
          exists before f after,
            data_files = before ++ f :: after
            /\ chunks (graph a')
               = chunks (graph a) ++ flat_map chunk_of (before ++ [f])).
Proof.
  induction data_files as [|f rest IH]; intros Htame a a' r Hrun;
    simpl in Hrun.
  - inversion Hrun; subst. split.
    + intros _. simpl. rewrite app_nil_r. reflexivity.
    + intros e H. discriminate H.
  - simpl in Htame. apply andb_true_iff in Htame.
    destruct Htame as [Hf Hrest].
    pose proof (ingest_steps_chunks regex_match out f (graph a) Hf) as Hch.
    destruct (ingest_steps regex_match out (file_path f) (file_read f)
                           (file_accepted f) (file_answer f) (graph a))
      as [g [e|h]].
    + inversion Hrun; subst. simpl in *. split.
      * intros H. discriminate H.
      * intros e' _. exists [], f, rest. split; [reflexivity|].
        simpl. rewrite app_nil_r. exact Hch.
    + simpl in Hch. apply (IH Hrest) in Hrun. simpl in Hrun.
      destruct Hrun as [Hok Hfail]. split.
      * intros Hr. rewrite (Hok Hr), Hch. simpl.
        rewrite <- app_assoc. reflexivity.
      * intros e Hr. destruct (Hfail e Hr) as [before [f' [after [Hb Hc]]]].
        exists (f :: before), f', after. split.
        -- rewrite Hb. reflexivity.
        -- rewrite Hc, Hch. simpl. rewrite <- !app_assoc. reflexivity.
Qed.

Lemma ingest_files_handle data_files :
  forall a a',
    ingest_files regex_match out data_files a = (a', inr tt) ->
    vector_store (session a')
    = match data_files with
      | [] => vector_store (session a)
      | _ :: _ => Some index_name
      end.
Proof.
  induction data_files as [|f rest IH]; intros a a' Hrun; simpl in Hrun.
  - inversion Hrun; subst. reflexivity.
  - pose proof (ingest_steps_handle regex_match out (file_path f)
                  (file_read f) (file_accepted f) (file_answer f) (graph a))
      as Hh.
    destruct (ingest_steps regex_match out (file_path f) (file_read f)
                           (file_accepted f) (file_answer f) (graph a))
      as [g [e|h]];
      [discriminate Hrun|].
    destruct (Hh h eq_refl) as [-> _].
    apply IH in Hrun. rewrite Hrun. destruct rest; reflexivity.
Qed.

(** A run over the files that ends without an exception has read and
    stored each of them and had an answer for each. *)
Lemma ingest_files_all_stored data_files :
  forall a a',
    ingest_files regex_match out data_files a = (a', inr tt) ->
    forall f, In f data_files ->
      exists text_data response,
        file_read f = inr text_data /\ file_accepted f = true
        /\ file_answer f = inr response.
Proof.
  induction data_files as [|f rest IH]; intros a a' Hrun f0 Hin;
    simpl in Hrun.
  - destruct Hin.
  - pose proof (ingest_steps_handle regex_match out (file_path f)
                  (file_read f) (file_accepted f) (file_answer f) (graph a))
      as Hh.
    destruct (ingest_steps regex_match out (file_path f) (file_read f)
                           (file_accepted f) (file_answer f) (graph a))
      as [g [e|h]];
      [discriminate Hrun|].
    destruct Hin as [<-|Hin]; [exact (proj2 (Hh h eq_refl))|].
    apply (IH _ _ Hrun f0 Hin).
Qed.

End PageProperties.

(** X15.  The Ingest button, on files whose extractions are tame.  A run
    over files that all ingest without an exception has read and stored
    each file and had an answer to each extraction request; it appends
    the chunks of the files to the index in their order, sets the handle
    and marks the evidence as loaded.  When a file raises, be it on
    reading, on storing the chunk, on the extraction request or later,
    the files after it are not touched, the index has gained the chunk of
    each file up to that one that was read and stored, and the evidence
    is not marked as loaded.  In both cases the chat messages are as they
    were; without files nothing changes. *)
Theorem ingest_button_outcome
  (regex_match : string -> string -> option bool) (out : Outside)
  (data_files : list DataFile) (a a' : App) (r : result unit) :
  forallb tame_file data_files = true ->
  press_ingest regex_match out data_files a = (a', r) ->
  messages (session a') = messages (session a)
  /\ (data_files = [] -> a' = a /\ r = inr tt)
  /\ (data_files <> [] -> r = inr tt ->
      ingested (session a') = true
      /\ vector_store (session a') = Some index_name
      /\ (forall f, In f data_files ->
            exists text_data response,
              file_read f = inr text_data /\ file_accepted f = true
              /\ file_answer f = inr response)
      /\ chunks (graph a')
         = chunks (graph a) ++ flat_map chunk_of data_files)
  /\ (forall e, r = inl e ->
        ingested (session a') = ingested (session a)
        /\ exists before f after,
            data_files = before ++ f :: after
            /\ chunks (graph a')
               = chunks (graph a) ++ flat_map chunk_of (before ++ [f])).
Proof.
  intros Htame Hrun. destruct data_files as [|f rest].
  - simpl in Hrun. inversion Hrun; subst.
    split; [reflexivity|]. split; [auto|]. split.
    + intros H. destruct (H eq_refl).
    + intros e H. discriminate H.
  - unfold press_ingest in Hrun.
    destruct (ingest_files_session regex_match out (f :: rest) a) as [Hm Hi].
    destruct (ingest_files regex_match out (f :: rest) a) as [a1 r1]
      eqn:Hfiles.
    simpl in Hm, Hi.
    destruct (ingest_files_chunks regex_match out _ Htame _ _ _ Hfiles)
      as [Hok Hfail].
    destruct r1 as [e|[]]; inversion Hrun; subst; simpl.
    + split; [exact Hm|]. split; [intros H; discriminate H|]. split.
      * intros _ H. discriminate H.
      * intros e' _. split; [exact Hi|]. apply (Hfail e eq_refl).
    + split; [exact Hm|]. split; [intros H; discriminate H|]. split.
      * intros _ _. split; [reflexivity|]. split.
        -- apply (ingest_files_handle regex_match out _ _ _ Hfiles).
        -- split; [apply (ingest_files_all_stored regex_match out _ _ _
                            Hfiles)|].
           apply Hok. reflexivity.
      * intros e H. discriminate H.
Qed.

Lemma ingest_button_outcome_witness :
  let start := mkApp initial_session empty_store in
  let unread := mkDataFile "data/z.txt" (inl OSError) true
                           (inr (Loaded first_fragment)) in
  let good := press_ingest literal_match refusing [loose_file] start in
  let bad := press_ingest literal_match refusing
                          [loose_file; broken_file; loose_file] start in
  let lost := press_ingest literal_match refusing [loose_file; unread] start in
  (ingested (session (fst good)) = true
   /\ chunks (graph (fst good)) = chunk_of loose_file)
  /\ (ingested (session (fst bad)) = false
      /\ exists before f after,
          [loose_file; broken_file; loose_file] = before ++ f :: after
          /\ chunks (graph (fst bad))
             = chunks empty_store ++ flat_map chunk_of (before ++ [f]))
  /\ (ingested (session (fst lost)) = false
      /\ exists before f after,
          [loose_file; unread] = before ++ f :: after
          /\ chunks (graph (fst lost))
             = chunks empty_store ++ flat_map chunk_of (before ++ [f])).
Proof.
  intros start unread good bad lost. split; [|split].
  - destruct (ingest_button_outcome literal_match refusing [loose_file] start
                (fst good) (snd good) eq_refl eq_refl) as [_ [_ [Hok _]]].
    assert ([loose_file] <> []) as Hne by (intros H; discriminate H).
    destruct (Hok Hne eq_refl) as [Hi [_ [_ Hc]]].
    split; [exact Hi|exact Hc].
  - destruct (ingest_button_outcome literal_match refusing
                [loose_file; broken_file; loose_file] start
                (fst bad) (snd bad) eq_refl eq_refl) as [_ [_ [_ Hfail]]].
    exact (Hfail (KeyError "id") eq_refl).
  - destruct (ingest_button_outcome literal_match refusing
                [loose_file; unread] start
                (fst lost) (snd lost) eq_refl eq_refl) as [_ [_ [_ Hfail]]].
    exact (Hfail OSError eq_refl).
Defined.

Lemma ingest_files_handle_kept regex_match out data_files :
  forall a a' r,
    vector_store (session a) <> None ->
    ingest_files regex_match out data_files a = (a', r) ->
    vector_store (session a') <> None.
Proof.
  induction data_files as [|f rest IH]; intros a a' r Hv Hrun;
    simpl in Hrun.
  - inversion Hrun; subst. exact Hv.
  - destruct (ingest_steps regex_match out (file_path f) (file_read f)
                           (file_accepted f) (file_answer f) (graph a))
      as [g [e|h]].
    + inversion Hrun; subst. exact Hv.
    + refine (IH _ _ _ _ Hrun). simpl. intros H. discriminate H.
Qed.

Lemma handle_keeps_handle_when_loaded
  regex_match out score set_order generate_content ev a :
  handle_when_loaded (session a) ->
  handle_when_loaded
    (session (handle regex_match out score set_order generate_content ev a)).
Proof.
  unfold handle_when_loaded. intros Hinv. destruct ev as [files| |question].
  - simpl. destruct files as [|f rest]; [exact Hinv|].
    unfold press_ingest.
    destruct (ingest_files_session regex_match out (f :: rest) a) as [_ Hi].
    destruct (ingest_files regex_match out (f :: rest) a) as [a1 [e|[]]]
      eqn:Hf.
    + cbn [fst] in *. intros Hing. rewrite Hi in Hing.
      apply (ingest_files_handle_kept regex_match out _ _ _ _ (Hinv Hing) Hf).
    + cbn [fst session vector_store]. intros _.
      rewrite (ingest_files_handle regex_match out _ _ _ Hf).
      intros H. discriminate H.
  - exact Hinv.
  - simpl. unfold submit. destruct question as [|c q]; [exact Hinv|].
    destruct (ingested (session a)) eqn:Hing; simpl; [|rewrite Hing; exact Hinv].
    destruct (vector_store (session a)) as [h|] eqn:Hv.
    + rewrite investigate_case_result. simpl.
      intros _ H. discriminate H.
    + destruct (Hinv eq_refl eq_refl).
Qed.

Lemma run_keeps_handle_when_loaded
  regex_match out score set_order generate_content evs :
  forall a,
    handle_when_loaded (session a) ->
    handle_when_loaded
      (session (run regex_match out score set_order generate_content evs a)).
Proof.
  induction evs as [|ev evs IH]; intros a Hinv; simpl.
  - exact Hinv.
  - apply IH. apply handle_keeps_handle_when_loaded. exact Hinv.
Qed.

(** X16.  From a fresh session, whatever the user has done on the page,
    a question never fails for lack of the vector store: the evidence is
    marked as loaded only after the handle was set, so the question is
    either refused with the warning or answered. *)
Theorem question_never_lacks_the_handle
  (regex_match : string -> string -> option bool) (out : Outside)
  (score : string -> string -> Z)
  (set_order : list string -> list string)
  (generate_content : string -> string)
  (evs : list Event) (g : Store) (question : string) :
  let a := run regex_match out score set_order generate_content evs
               (mkApp initial_session g) in
  (ingested (session a) = true -> vector_store (session a) <> None)
  /\ exists shown,
      snd (submit score set_order generate_content question a) = inr shown.
Proof.
  intros a.
  assert (handle_when_loaded (session a)) as Hinv.
  { apply run_keeps_handle_when_loaded. intros H. discriminate H. }
  split; [exact Hinv|].
  unfold submit. destruct question as [|c q]; [eexists; reflexivity|].
  destruct (ingested (session a)) eqn:Hing; simpl; [|eexists; reflexivity].
  destruct (vector_store (session a)) as [h|] eqn:Hv.
  - rewrite investigate_case_result. eexists. reflexivity.
  - destruct (Hinv Hing Hv).
Qed.

(** X17.  A question.  Before the evidence is loaded it changes nothing
    and shows nothing.  Once it is loaded, the chat gains the question
    and then the verdict of the synthesizer, in that order, the graph is
    left as it was, and the page shows at most ten connections, no two
    alike, all of them among the first ten facts of the retrieval. *)
Theorem question_outcome
  (score : string -> string -> Z)
  (set_order : list string -> list string)
  (generate_content : string -> string)
  (Hnodup : forall l, NoDup (set_order l))
  (Hsame : forall l x, In x (set_order l) <-> In x l)
  (question : string) (a : App) :
  (ingested (session a) = false ->
   submit score set_order generate_content question a = (a, inr []))
  /\ (ingested (session a) = true ->
      vector_store (session a) <> None -> question <> EmptyString ->
      exists context_text graph_context a' shown,
        investigate_case score question (graph a)
        = (graph a, inr (context_text, graph_context))
        /\ submit score set_order generate_content question a
           = (a', inr shown)
        /\ graph a' = graph a
        /\ ingested (session a') = true
        /\ vector_store (session a') = vector_store (session a)
        /\ messages (session a')
           = messages (session a)
             ++ [mkMessage "user" question;
                 mkMessage "assistant"
                   (solve_crime set_order generate_content question
                                context_text graph_context)]
        /\ length shown <= 10 /\ NoDup shown
        /\ incl shown (firstn 10 graph_context)).
Proof.
  split.
  - intros Hing. unfold submit. destruct question; [reflexivity|].
    rewrite Hing. reflexivity.
  - intros Hing Hv Hq. unfold submit.
    destruct question as [|c q]; [destruct (Hq eq_refl)|].
    rewrite Hing. simpl.
    destruct (vector_store (session a)) as [h|] eqn:Hh; [|destruct (Hv eq_refl)].
    rewrite investigate_case_result.
    eexists. eexists. eexists. eexists.
    split; [reflexivity|]. split; [reflexivity|]. simpl.
    split; [reflexivity|]. split; [reflexivity|]. split; [reflexivity|].
    split; [rewrite <- app_assoc; reflexivity|].
    destruct (concat (map (chunk_facts (graph a))
                          (retrieved score (String c q) (graph a))))
      as [|x rest].
    + split; [simpl; lia|]. split; [constructor|]. intros y [].
    + match goal with
      | |- length (set_order ?l) <= 10 /\ _ =>
          change l with (firstn 10 (x :: rest));
          assert (incl (set_order (firstn 10 (x :: rest)))
                       (firstn 10 (x :: rest))) as Hincl
            by (intros y Hy; apply Hsame; exact Hy);
          pose proof (NoDup_incl_length (Hnodup (firstn 10 (x :: rest)))
                                        Hincl) as Hlen;
          pose proof (firstn_le_length 10 (x :: rest)) as Hten
      end.
      split; [lia|]. split; [apply Hnodup|exact Hincl].
Qed.

Lemma question_outcome_witness :
  let a := fst (press_ingest literal_match refusing [case_file]
                             (mkApp initial_session empty_store)) in
  submit by_position (nodup string_dec) (fun p => p) case_query
         (mkApp initial_session empty_store)
  = (mkApp initial_session empty_store, inr [])
  /\ exists a' shown,
      submit by_position (nodup string_dec) (fun p => p) case_query a
      = (a', inr shown)
      /\ graph a' = graph a /\ length (messages (session a')) = 2
      /\ length shown <= 10.
Proof.
  intros a.
  pose proof (question_outcome by_position (nodup string_dec) (fun p => p)
                (fun l => NoDup_nodup string_dec l)
                (fun l x => nodup_In string_dec l x) case_query) as H.
  split.
  - apply (proj1 (H (mkApp initial_session empty_store))). reflexivity.
  - destruct (proj2 (H a)) as (ctx & facts & a' & shown & _ & Hs & Hg & _ & _
                               & Hm & Hlen & _).
    + reflexivity.
    + intros Hnone. discriminate Hnone.
    + intros Hempty. discriminate Hempty.
    + exists a', shown. split; [exact Hs|]. split; [exact Hg|].
      split; [rewrite Hm; reflexivity|exact Hlen].
Defined.

Lemma handle_graph_step (Q : Store -> Prop)
  regex_match out score set_order generate_content ev a :
  (forall f g,
      tame_file f = true ->
      Q g ->
      Q (fst (ingest_steps regex_match out (file_path f) (file_read f)
                           (file_accepted f) (file_answer f) g))) ->
  tame_event ev = true ->
  Q (graph a) ->
  Q (graph (handle regex_match out score set_order generate_content ev a)).
Proof.
  intros Hstep Htame Ha. destruct ev as [files| |question]; simpl.
  - destruct files as [|f rest]; [exact Ha|]. unfold press_ingest.
    pose proof (ingest_files_keeps regex_match out Q (f :: rest) Hstep Htame
                                   a Ha) as H.
    destruct (ingest_files regex_match out (f :: rest) a) as [a1 [e|[]]];
      exact H.
  - exact Ha.
  - unfold submit. destruct question as [|c q]; [exact Ha|].
    destruct (ingested (session a)); simpl; [|exact Ha].
    destruct (vector_store (session a)); [|exact Ha].
    rewrite investigate_case_result. exact Ha.
Qed.

Lemma ingest_steps_keeps_ids_unique regex_match out f g :
  tame_file f = true ->
  NoDup (map ent_id (entities g)) ->
  NoDup (map ent_id
           (entities
              (fst (ingest_steps regex_match out (file_path f) (file_read f)
                                 (file_accepted f) (file_answer f) g)))).
Proof.
  intros Htame Hg.
  apply (ingest_steps_keeps (fun g => NoDup (map ent_id (entities g))));
    [exact Htame|exact Hg|intros text_data; exact Hg|].
  intros text_data response Hr. apply ingest_keeps_ids_unique; assumption.
Qed.

Lemma run_keeps_graph_sound
  regex_match out score set_order generate_content evs g0 :
  forallb tame_event evs = true ->
  forall a,
    well_formed (graph a) ->
    NoDup (map ent_id (entities (graph a))) ->
    grows g0 (graph a) ->
    let a' := run regex_match out score set_order generate_content evs a in
    well_formed (graph a')
    /\ NoDup (map ent_id (entities (graph a')))
    /\ grows g0 (graph a').
Proof.
  induction evs as [|ev evs IH]; intros Htame a Hwf Hnd Hg.
  - simpl. split; [exact Hwf|]. split; [exact Hnd|exact Hg].
  - simpl in Htame. apply andb_true_iff in Htame.
    destruct Htame as [Hev Hevs]. simpl. apply (IH Hevs).
    + apply (handle_graph_step well_formed); [|exact Hev|exact Hwf].
      intros f g1 Hf H1.
      apply (ingest_steps_keeps well_formed); [exact Hf|exact H1| |].
      * intros text_data. apply new_chunk_well_formed. exact H1.
      * intros text_data response Hr. apply ingest_well_formed; assumption.
    + apply (handle_graph_step (fun g => NoDup (map ent_id (entities g))));
        [|exact Hev|exact Hnd].
      intros f g1 Hf H1. apply ingest_steps_keeps_ids_unique; assumption.
    + apply (handle_graph_step (grows g0)); [|exact Hev|exact Hg].
      intros f g1 Hf H1. eapply grows_trans; [exact H1|].
      apply (ingest_steps_keeps (grows g1)); [exact Hf|apply grows_refl| |].
      * intros text_data. apply new_chunk_grows.
      * intros text_data response Hr. apply ingest_grows. exact Hr.
Qed.

(** X18.  Whatever the user does on the page, in whatever order, with
    files whose extractions are tame, the graph stays sound and nothing
    is lost from it: from a well-formed store with distinct entity ids,
    every run of events leaves a well-formed store with distinct entity
    ids that holds all that the store held at the start. *)
Theorem page_keeps_the_graph_sound
  (regex_match : string -> string -> option bool) (out : Outside)
  (score : string -> string -> Z)
  (set_order : list string -> list string)
  (generate_content : string -> string)
  (evs : list Event) (a : App) :
  forallb tame_event evs = true ->
  well_formed (graph a) ->
  NoDup (map ent_id (entities (graph a))) ->
  let a' := run regex_match out score set_order generate_content evs a in
  well_formed (graph a')
  /\ NoDup (map ent_id (entities (graph a')))
  /\ grows (graph a) (graph a').
Proof.
  intros Htame Hwf Hnd. apply run_keeps_graph_sound; try assumption.
  apply grows_refl.
Qed.

Lemma page_keeps_the_graph_sound_witness :
  let a := run literal_match refusing by_position (nodup string_dec)
               (fun p => p)
               [PressIngest [loose_file; broken_file];
                Submit case_query; PressClear;
                PressIngest [case_file]]
               (mkApp initial_session empty_store) in
  well_formed (graph a) /\ NoDup (map ent_id (entities (graph a))).
Proof.
  intros a.
  destruct (page_keeps_the_graph_sound literal_match refusing by_position
              (nodup string_dec) (fun p => p)
              [PressIngest [loose_file; broken_file];
               Submit case_query; PressClear;
               PressIngest [case_file]]
              (mkApp initial_session empty_store) eq_refl
              empty_store_well_formed (NoDup_nil string))
    as [Hwf [Hnd _]].
  split; [exact Hwf|exact Hnd].
Defined.

(** ** No link twice *)

Lemma same_edge_key a l b e :
  same_edge a l b e = true <-> edge_key e = (a, l, b).
Proof.
  unfold same_edge, edge_key. split.
  - intros H. apply andb_true_iff in H. destruct H as [H Hb].
    apply andb_true_iff in H. destruct H as [Ha Hl].
    apply String.eqb_eq in Ha, Hl, Hb. congruence.
  - intros H. inversion H; subst. rewrite !String.eqb_refl. reflexivity.
Qed.

Lemma merge_edge_distinct ents a l b es :
  NoDup (map edge_key es) -> NoDup (map edge_key (merge_edge ents a l b es)).
Proof.
  intros Hnd. unfold merge_edge.
  destruct (has_entity a ents && has_entity b ents); [|exact Hnd].
  destruct (existsb (same_edge a l b) es) eqn:E; [exact Hnd|].
  rewrite map_app. simpl. apply nodup_snoc; [|exact Hnd].
  intros Hin. apply in_map_iff in Hin. destruct Hin as [e [Hk Hin]].
  assert (existsb (same_edge a l b) es = true) as C.
  { apply existsb_exists. exists e. split; [exact Hin|].
    apply same_edge_key. exact Hk. }
  congruence.
Qed.

Lemma merge_edges_distinct ents R es :
  NoDup (map edge_key es) -> NoDup (map edge_key (merge_edges ents R es)).
Proof.
  unfold merge_edges. revert es.
  induction R as [|[[a l] b] R IH]; intros es Hnd; simpl.
  - exact Hnd.
  - apply IH. apply merge_edge_distinct. exact Hnd.
Qed.

Lemma merge_mention_distinct i id ms :
  NoDup ms -> NoDup (merge_mention i id ms).
Proof.
  intros Hnd. unfold merge_mention.
  destruct (existsb (same_mention i id) ms) eqn:E; [exact Hnd|].
  apply nodup_snoc; [|exact Hnd]. intros Hin.
  assert (existsb (same_mention i id) ms = true) as C.
  { apply existsb_exists. exists (i, id). split; [exact Hin|].
    unfold same_mention. simpl. rewrite Nat.eqb_refl, String.eqb_refl.
    reflexivity. }
  congruence.
Qed.

Lemma fold_merge_mention_distinct id found ms :
  NoDup ms -> NoDup (fold_left (fun ms i => merge_mention i id ms) found ms).
Proof.
  revert ms. induction found as [|i found IH]; intros ms Hnd; simpl.
  - exact Hnd.
  - apply IH. apply merge_mention_distinct. exact Hnd.
Qed.

Lemma mentions_loop_distinct regex_match out text ns :
  forallb tame_node ns = true ->
  forall g,
    links_distinct g ->
    links_distinct
      (fst (for_each (mention_step regex_match out text) ns g)).
Proof.
  induction ns as [|node rest IH]; intros Htame g Hg; [exact Hg|].
  simpl in Htame. apply andb_true_iff in Htame.
  destruct Htame as [Hnode Hrest].
  simpl. unfold bind.
  assert (forall g1 r1,
             mention_step regex_match out text node g = (g1, r1) ->
             links_distinct g1) as Hstep.
  { intros g1 r1 Hrun.
    destruct (mention_step_cases regex_match out text node g Hnode)
      as [[r0 [H0 _]]|[id [found [_ [_ [_ Hr]]]]]].
    - rewrite H0 in Hrun. inversion Hrun; subst. exact Hg.
    - rewrite Hr in Hrun. inversion Hrun; subst.
      destruct Hg as [Hd Hm]. split; simpl; [exact Hd|].
      apply fold_merge_mention_distinct. exact Hm. }
  destruct (mention_step regex_match out text node g) as [g1 [e|[]]] eqn:E.
  - apply (Hstep g1 (inl e) eq_refl).
  - apply (IH Hrest). apply (Hstep g1 (inr tt) eq_refl).
Qed.

(** X19.  The ingestion of a tame extraction never doubles a link: when
    no two edges of the store have the same ends and type and no MENTIONS
    link is there twice, the same holds after the ingestion, whatever
    relationships the extraction repeats or the store already has. *)
Theorem ingest_keeps_links_distinct
  (regex_match : string -> string -> option bool) (out : Outside)
  (file_path text_data : string) (response : loads_result) (g : Store) :
  tame (extract_graph_schema response) = true ->
  links_distinct g ->
  links_distinct
    (fst (ingest_evidence regex_match out file_path text_data response g)).
Proof.
  intros Htame Hg.
  apply (ingest_stagewise regex_match out links_distinct); [exact Htame| | | |].
  - exact Hg.
  - intros ns g0 Ht H0. destruct (nodes_loop_spec out ns Ht) as [P [r [_ H]]].
    rewrite H. exact H0.
  - intros rs g0 Ht [Hd Hm]. destruct (rels_loop_spec out rs Ht) as [R [r H]].
    rewrite H. split; simpl; [|exact Hm].
    apply merge_edges_distinct. exact Hd.
  - intros ns g0 Ht H0. apply mentions_loop_distinct; assumption.
Qed.

Lemma ingest_keeps_links_distinct_witness : links_distinct after_second.
Proof.
  apply (ingest_keeps_links_distinct literal_match refusing "data/b.txt"
           "Marcus met Aris." (Loaded second_fragment) after_first eq_refl).
  apply (ingest_keeps_links_distinct literal_match refusing "data/a.txt"
           "Aris left early." (Loaded first_fragment) empty_store eq_refl).
  split; constructor.
Defined.

(** ** Spellings of a relationship type *)

Lemma named_rel_step out rel a ty b g :
  subscript rel "type" = inr (JStr ty) ->
  subscript rel "source" = inr (JStr a) ->
  subscript rel "target" = inr (JStr b) ->
  is_ascii ty = true ->
  cypher_name (sanitize ty) = true ->
  rel_step out rel g
  = (mkStore (entities g)
             (merge_edge (entities g) a (sanitize ty) b (edges g))
             (chunks g) (mentions g), inr tt).
Proof.
  intros Hty Hs Ht Hascii Hname.
  unfold rel_step, run_merge_edge, str_upper, py_upper.
  rewrite Hty, Hs, Ht. step_result. rewrite Hascii. cbv beta iota.
  rewrite sanitize_upper, Hname. reflexivity.
Qed.

Lemma merge_edge_twice ents a l b es :
  merge_edge ents a l b (merge_edge ents a l b es) = merge_edge ents a l b es.
Proof. apply (merge_edges_idempotent ents [(a, l, b)] es). Qed.

(** X20.  Spellings of a type that normalize alike name one relationship:
    for ASCII types that normalize to one Cypher name, after the upsert
    of a relationship, the upsert of a relationship with the same ends
    and the other spelling changes nothing, so [has motive],
    [Has-Motive] and [HAS_MOTIVE] give a single edge. *)
Theorem spellings_that_normalize_alike_share_the_edge
  (out : Outside) (a b ty ty' : string) (g : Store) :
  is_ascii ty = true -> is_ascii ty' = true ->
  cypher_name (sanitize ty) = true ->
  sanitize ty = sanitize ty' ->
  let g1 := fst (rel_step out (rel_obj a ty b) g) in
  rel_step out (rel_obj a ty' b) g1 = (g1, inr tt).
Proof.
  intros Hascii Hascii' Hname Heq g1. unfold g1.
  rewrite (named_rel_step out (rel_obj a ty b) a ty b g)
    by (reflexivity || assumption).
  rewrite (named_rel_step out (rel_obj a ty' b) a ty' b)
    by (reflexivity || assumption || (rewrite <- Heq; exact Hname)).
  simpl. rewrite <- Heq, merge_edge_twice. reflexivity.
Qed.

Lemma spellings_that_normalize_alike_share_the_edge_witness :
  let g1 := fst (rel_step refusing (rel_obj "Marcus" "has motive" "Aris")
                          after_second) in
  rel_step refusing (rel_obj "Marcus" "Has-Motive" "Aris") g1 = (g1, inr tt)
  /\ rel_step refusing (rel_obj "Marcus" "HAS_MOTIVE" "Aris") g1
     = (g1, inr tt).
Proof.
  split.
  - apply spellings_that_normalize_alike_share_the_edge; reflexivity.
  - apply spellings_that_normalize_alike_share_the_edge; reflexivity.
Defined.

(** ** Tame extractions *)

(** X21.  Ingesting a document a second time, with the extractor giving
    the same tame answer, leaves the Entity nodes and the relationships
    of the graph exactly as the first ingestion left them: the same nodes
    in the same number, the same edges in the same number. *)
Theorem tame_ingest_twice_same_graph
  (regex_match : string -> string -> option bool) (out : Outside)
  (file_path text_data : string) (response : loads_result) (g : Store) :
  tame (extract_graph_schema response) = true ->
  let once :=
    fst (ingest_evidence regex_match out file_path text_data response g) in
  let twice :=
    fst (ingest_evidence regex_match out file_path text_data response once) in
  entities twice = entities once /\ edges twice = edges once.
Proof.
  intros Htame.
  destruct (ingest_graph_effect regex_match out file_path text_data response
                                Htame)
    as [P [R [_ H]]].
  intros once twice.
  destruct (H g) as [He [Hd _]]. destruct (H once) as [He' [Hd' _]].
  fold once in He, Hd. fold twice in He', Hd'.
  assert (entities twice = entities once) as Heq.
  { rewrite He', He. apply merge_all_idempotent. }
  split; [exact Heq|].
  rewrite Hd'. rewrite <- He'. rewrite Heq. rewrite Hd. rewrite <- He.
  apply merge_edges_idempotent.
Qed.

Lemma tame_ingest_twice_same_graph_witness :
  let twice :=
    fst (ingest_evidence literal_match refusing "data/case.txt" sentence
                         (Loaded case_fragment) after_case) in
  entities twice = entities after_case /\ edges twice = edges after_case.
Proof.
  exact (tame_ingest_twice_same_graph literal_match refusing "data/case.txt"
           sentence (Loaded case_fragment) empty_store eq_refl).
Defined.

(** X22.  The edge upsert of a relationship whose ends are text and
    whose type is ASCII and normalizes to a Cypher name matches existing
    entities only.  When an end has no Entity node in the store at that
    moment the upsert changes nothing: no edge, no node.  When both ends
    exist, the store gains at most the edge of the normalized type from
    source to target, which is in the store afterwards, and nothing else
    changes. *)
Theorem named_type_edge_upsert
  (out : Outside) (rel : json) (a b ty : string) (g : Store) :
  subscript rel "type" = inr (JStr ty) ->
  subscript rel "source" = inr (JStr a) ->
  subscript rel "target" = inr (JStr b) ->
  is_ascii ty = true ->
  cypher_name (sanitize ty) = true ->
  (has_entity a (entities g) && has_entity b (entities g) = false ->
   rel_step out rel g = (g, inr tt))
  /\
  (has_entity a (entities g) && has_entity b (entities g) = true ->
   exists g',
     rel_step out rel g = (g', inr tt) /\
     entities g' = entities g /\ chunks g' = chunks g /\
     mentions g' = mentions g /\
     existsb (same_edge a (sanitize ty) b) (edges g') = true /\
     (forall e, In e (edges g') <->
                In e (edges g) \/
                (existsb (same_edge a (sanitize ty) b) (edges g) = false
                 /\ e = mkEdge a (sanitize ty) b []))).
Proof.
  intros Hty Hs Ht Hascii Hname.
  rewrite (named_rel_step out rel a ty b g Hty Hs Ht Hascii Hname).
  split.
  - intros Hno. unfold merge_edge. rewrite Hno. destruct g; reflexivity.
  - intros Hyes. eexists. split; [reflexivity|].
    simpl. unfold merge_edge. rewrite Hyes.
    repeat (split; [reflexivity|]).
    destruct (existsb (same_edge a (sanitize ty) b) (edges g)) eqn:E.
    + split; [exact E|]. intros e. split; [auto|].
      intros [H|[H _]]; [exact H|discriminate H].
    + split.
      * rewrite existsb_app. simpl. rewrite same_edge_refl.
        rewrite orb_true_r. reflexivity.
      * intros e. rewrite in_app_iff. simpl. split.
        -- intros [H|[H|[]]]; [left; exact H|right; auto].
        -- intros [H|[_ H]]; [left; exact H|right; left; auto].
Qed.

Lemma named_type_edge_upsert_witness :
  rel_step refusing (rel_obj "Aris" "has motive" "Helena") after_first
  = (after_first, inr tt)
  /\
  exists g',
    rel_step refusing (rel_obj "Aris" "has motive" "Marcus") after_second
    = (g', inr tt) /\
    entities g' = entities after_second /\ chunks g' = chunks after_second /\
    mentions g' = mentions after_second /\
    existsb (same_edge "Aris" (sanitize "has motive") "Marcus") (edges g')
    = true /\
    (forall e, In e (edges g') <->
               In e (edges after_second) \/
               (existsb (same_edge "Aris" (sanitize "has motive") "Marcus")
                        (edges after_second) = false
                /\ e = mkEdge "Aris" (sanitize "has motive") "Marcus" [])).
Proof.
  split.
  - apply (proj1 (named_type_edge_upsert refusing
                    (rel_obj "Aris" "has motive" "Helena")
                    "Aris" "Helena" "has motive" after_first
                    eq_refl eq_refl eq_refl eq_refl eq_refl)).
    reflexivity.
  - apply (proj2 (named_type_edge_upsert refusing
                    (rel_obj "Aris" "has motive" "Marcus")
                    "Aris" "Marcus" "has motive" after_second
                    eq_refl eq_refl eq_refl eq_refl eq_refl)).
    reflexivity.
Defined.
